(** * Generalized Procrustes analysis: the convergence loop of [helper.py]

    A shallow embedding of [generalized_procrustes] (src/helper.py) and the
    properties of its loop: what one iteration does, the iteration cap, the
    loop test, the first-iteration sentinel, failure propagation and the
    frame of the mutation.

    - Meshes are Python objects; the list [surf] holds references to them and
      the same object may occur more than once.  The store is a finite map
      from object identities to the vertex array held in the attribute [v].
    - A vertex array has shape (n, 3): a list of coordinate triples.
    - The element type of the arrays is a parameter ([Scalar]); it is
      instantiated with the real numbers (exact arithmetic) and with binary64
      floats (what numpy computes with).
    - [align] is the external primitive; it returns an array or raises.
    - numpy is modelled as of version 1.24: subtraction broadcasts or raises
      [ValueError], [np.array] on arrays of different shapes raises
      [ValueError], [np.mean] adds the arrays one after the other and divides
      by their number, [np.linalg.norm] is the square root of the dot product
      of the flattened array with itself.
    - The statements about the distance (the loop test, the sentinel,
      identical meshes, mismatched vertex counts) are proved for every
      element type; what they need of the arithmetic is a hypothesis on the
      input, which the witnesses compute in binary64.  For the real numbers
      these hypotheses hold whenever the first mesh has a vertex; the
      examples show inputs on which binary64 does not satisfy them. *)

From Stdlib Require Import Floats.PrimFloat.
From Stdlib Require Import Reals Lra Lia.
From Stdlib Require Numbers.Cyclic.Int63.Uint63.
From stdpp Require Import gmap list.

(** ** Scalars *)

(** The arithmetic numpy performs on array elements. *)
Class Scalar (F : Type) := {
  f0 : F;
  f1 : F;
  fadd : F → F → F;
  fsub : F → F → F;
  fmul : F → F → F;
  fdiv : F → F → F;
  fsqrt : F → F;
  (** [fgt x y] is the comparison [x > y]. *)
  fgt : F → F → bool;
  (** The element count [np.mean] divides by, as a scalar. *)
  fcount : nat → F;
  (** The literal [1e-11]. *)
  tol : F
}.

(** ** Vertex arrays *)

(** A vertex position, and an array of shape (n, 3). *)
Abbreviation vertex F := (F * F * F)%type.
Abbreviation verts F := (list (vertex F)).

Section Arrays.
Context {F : Type} `{Scalar F}.

Definition vlift2 (op : F → F → F) (p q : vertex F) : vertex F :=
  let '(x1, y1, z1) := p in
  let '(x2, y2, z2) := q in
  (op x1 x2, op y1 y2, op z1 z2).

(** [a + c] for a scalar [c]. *)
Definition add_scalar (a : verts F) (c : F) : verts F :=
  (λ p, vlift2 fadd p (c, c, c)) <$> a.

(** A binary operation on two arrays of shapes (n, 3) and (m, 3), with
    numpy's broadcasting: equal lengths combine row by row, a single row
    is repeated against the other array, and anything else is the
    [ValueError] "operands could not be broadcast together" ([None]). *)
Definition broadcast2 (op : F → F → F) (a b : verts F) : option (verts F) :=
  if decide (length a = length b) then Some (zip_with (vlift2 op) a b)
  else match a, b with
       | [p], _ => Some (vlift2 op p <$> b)
       | _, [q] => Some ((λ p, vlift2 op p q) <$> a)
       | _, _ => None
       end.

(** [x.ravel()]: the coordinates in row-major order. *)
Definition ravel (a : verts F) : list F :=
  flat_map (λ p : vertex F, let '(x, y, z) := p in [x; y; z]) a.

(** [x.dot(x)] on the flattened array. *)
Definition sqnorm (xs : list F) : F :=
  fold_left (λ acc x, fadd acc (fmul x x)) xs f0.

(** [np.linalg.norm(a)]: the square root of the sum of the squares of all
    entries. *)
Definition norm (a : verts F) : F := fsqrt (sqnorm (ravel a)).

(** [np.array([...])] on a list of arrays succeeds when they all have the
    shape of the first one; a ragged list is a [ValueError] (numpy 1.24
    and later). *)
Definition same_shape (a : verts F) (bs : list (verts F)) : bool :=
  forallb (λ b, length b =? length a) bs.

(** [np.mean(stack, axis=0)] for the stack [a :: bs]: the rows are added
    one array after the other, then every entry is divided by the number
    of arrays. *)
Definition mean_axis0 (a : verts F) (bs : list (verts F)) : verts F :=
  let n := fcount (S (length bs)) in
  (λ p, vlift2 fdiv p (n, n, n)) <$> fold_left (zip_with (vlift2 fadd)) bs a.
End Arrays.

(** ** Exceptions, the store, completions *)

(** The exceptions the procedure can end with.  [IndexError],
    [AttributeError] and [ValueError] are Python's built-in exceptions, raised
    by the interpreter and by numpy; [AlignError e] is whatever [align]
    raised. *)
Inductive pyexn (E : Type) : Type :=
  | IndexError
  | AttributeError
  | ValueError
  | AlignError (e : E).
Arguments IndexError {E}.
Arguments AttributeError {E}.
Arguments ValueError {E}.
Arguments AlignError {E} e.

(** The statement an exception is raised from (its line in helper.py). *)
Inductive site : Type :=
  | line9    (* ref_v = np.copy(surf[0].v) *)
  | line14   (* the loop test *)
  | line19   (* s.v = np.array(align(s.v, ref_v)) *)
  | line22.  (* ref_v = np.mean(np.array([s.v for s in surf]), axis=0) *)

(** Object identities. *)
Abbreviation loc := positive.

(** How a statement ends: normally with a value, or with an exception raised
    at a site, the store being as it was at that moment. *)
Inductive completion (F E A : Type) : Type :=
  | Normal (a : A)
  | Raised (l : site) (e : pyexn E) (h : gmap loc (verts F)).
Arguments Normal {F E A} a.
Arguments Raised {F E A} l e h.

(** The local variables of the procedure together with the store. *)
Record state (F : Type) : Type := mkState {
  ref_v : verts F;
  old_ref_v : verts F;
  n_steps : nat;
  heap : gmap loc (verts F)
}.
Arguments mkState {F} ref_v old_ref_v n_steps heap.
Arguments ref_v {F} s.
Arguments old_ref_v {F} s.
Arguments n_steps {F} s.
Arguments heap {F} s.

(** ** The procedure *)

Section Procrustes.
Context {F : Type} `{Scalar F} {E : Type}.
(** The external primitive [align(src, ref)]: the aligned array, or the
    exception it raised. *)
Variable align : verts F → verts F → E + verts F.

(** Lines 18-19: [for i, s in enumerate(surf): s.v = np.array(align(s.v, ref_v))]. *)
Fixpoint align_all (ref : verts F) (ss : list loc) (h : gmap loc (verts F))
  : completion F E (gmap loc (verts F)) :=
  match ss with
  | [] => Normal h
  | s :: ss' =>
      match h !! s with
      | None => Raised line19 AttributeError h
      | Some v =>
          match align v ref with
          | inl e => Raised line19 (AlignError e) h
          | inr v' => align_all ref ss' (<[s := v']> h)
          end
      end
  end.

(** Line 14: [np.linalg.norm(ref_v - old_ref_v) > 1e-11 and 1000 > n_steps]. *)
Definition cond (st : state F) : completion F E bool :=
  match broadcast2 fsub (ref_v st) (old_ref_v st) with
  | None => Raised line14 ValueError (heap st)
  | Some d => Normal (fgt (norm d) tol && (n_steps st <? 1000))
  end.

Section Loop.
(** Inside the loop [surf] is [s0 :: rest]: line 9 has already read
    [surf[0]]. *)
Variables (s0 : loc) (rest : list loc).

(** Line 22. *)
Definition new_reference (h : gmap loc (verts F)) : completion F E (verts F) :=
  match h !! s0, mapM (λ s, h !! s) rest with
  | Some a, Some bs =>
      if same_shape a bs then Normal (mean_axis0 a bs)
      else Raised line22 ValueError h
  | _, _ => Raised line22 AttributeError h
  end.

(** Lines 15-22: one execution of the loop body. *)
Definition body (st : state F) : completion F E (state F) :=
  let n := n_steps st + 1 in
  let old := ref_v st in
  match align_all (ref_v st) (s0 :: rest) (heap st) with
  | Raised l e h => Raised l e h
  | Normal h =>
      match new_reference h with
      | Raised l e h' => Raised l e h'
      | Normal r => Normal (mkState r old n h)
      end
  end.

(** Lines 14-22: the [while] loop.  [None] is "out of fuel". *)
Fixpoint while_loop (fuel : nat) (st : state F) : option (completion F E (state F)) :=
  match fuel with
  | 0 => None
  | S fuel' =>
      match cond st with
      | Raised l e h => Some (Raised l e h)
      | Normal false => Some (Normal st)
      | Normal true =>
          match body st with
          | Raised l e h => Some (Raised l e h)
          | Normal st' => while_loop fuel' st'
          end
      end
  end.

(** The loop as a relation: [loop_runs st k c] when the loop started in
    [st] enters its body [k] times and ends with [c]. *)
Inductive loop_runs : state F → nat → completion F E (state F) → Prop :=
  | runs_test_raises st l e h :
      cond st = Raised l e h →
      loop_runs st 0 (Raised l e h)
  | runs_exit st :
      cond st = Normal false →
      loop_runs st 0 (Normal st)
  | runs_body_raises st l e h :
      cond st = Normal true →
      body st = Raised l e h →
      loop_runs st 1 (Raised l e h)
  | runs_iterate st st' k c :
      cond st = Normal true →
      body st = Normal st' →
      loop_runs st' k c →
      loop_runs st (S k) c.

(** [iterates k st st']: [k] complete executions of the body lead from
    the loop test in [st] to the loop test in [st']. *)
Inductive iterates : nat → state F → state F → Prop :=
  | iterates_O st :
      iterates 0 st st
  | iterates_S k st st' st'' :
      cond st = Normal true →
      body st = Normal st' →
      iterates k st' st'' →
      iterates (S k) st st''.

(** The number of times the loop started in [st] enters its body. *)
Fixpoint body_entries (fuel : nat) (st : state F) : nat :=
  match fuel with
  | 0 => 0
  | S fuel' =>
      match cond st with
      | Normal true =>
          S (match body st with
             | Normal st' => body_entries fuel' st'
             | Raised _ _ _ => 0
             end)
      | _ => 0
      end
  end.
End Loop.

(** Lines 9-12: the state the loop starts in. *)
Definition init (v0 : verts F) (h : gmap loc (verts F)) : state F :=
  mkState v0 (add_scalar v0 f1) 0 h.

(** The whole procedure on the list [surf] and the store [h].  A normal
    completion carries the returned value, which is Python's [None] (the
    function has no [return]), and the final store. *)
Definition generalized_procrustes_fuel (fuel : nat) (surf : list loc)
    (h : gmap loc (verts F))
  : option (completion F E (option (verts F) * gmap loc (verts F))) :=
  match surf with
  | [] => Some (Raised line9 IndexError h)
  | s0 :: rest =>
      match h !! s0 with
      | None => Some (Raised line9 AttributeError h)
      | Some v0 =>
          match while_loop s0 rest fuel (init v0 h) with
          | None => None
          | Some (Raised l e h') => Some (Raised l e h')
          | Some (Normal st) => Some (Normal (None, heap st))
          end
      end
  end.

(** 1001 tests of the loop condition are always enough
    ([while_loop_fuel]). *)
Definition generalized_procrustes :=
  generalized_procrustes_fuel 1001.
End Procrustes.

(** ** The two element types *)

(** Exact arithmetic: the real numbers. *)
#[export] Instance R_scalar : Scalar R := {|
  f0 := 0%R;
  f1 := 1%R;
  fadd := Rplus;
  fsub := Rminus;
  fmul := Rmult;
  fdiv := Rdiv;
  fsqrt := sqrt;
  fgt := λ x y, if Rgt_dec x y then true else false;
  fcount := INR;
  tol := 1e-11%R
|}.

(** numpy's float64: IEEE 754 binary64.  A comparison with a NaN is false;
    the literal is the binary64 number nearest to 1e-11. *)
#[export] Instance float_scalar : Scalar PrimFloat.float := {|
  f0 := 0%float;
  f1 := 1%float;
  fadd := PrimFloat.add;
  fsub := PrimFloat.sub;
  fmul := PrimFloat.mul;
  fdiv := PrimFloat.div;
  fsqrt := PrimFloat.sqrt;
  fgt := λ x y, PrimFloat.ltb y x;
  fcount := λ n, PrimFloat.of_uint63 (Uint63.of_Z (Z.of_nat n));
  tol := 0x1.5fd7fe1796495p-37%float
|}.

(** ** Vocabulary of the specification *)

(** The three coordinate axes of a vertex position. *)
Inductive axis : Type := X | Y | Z.

Definition coord {F : Type} (ax : axis) (p : vertex F) : F :=
  match ax with X => p.1.1 | Y => p.1.2 | Z => p.2 end.

Section Vocabulary.
Context {F : Type} `{Scalar F} {E : Type}.
Variable align : verts F → verts F → E + verts F.

(** [aligned_in_order ref ss h h']: going through the objects [ss] from
    left to right, and replacing the array of each one by the result of
    aligning the array it holds at that moment onto [ref], leads from the
    store [h] to the store [h']. *)
Inductive aligned_in_order (ref : verts F)
  : list loc → gmap loc (verts F) → gmap loc (verts F) → Prop :=
  | aligned_nil h :
      aligned_in_order ref [] h h
  | aligned_cons s ss h v v' h' :
      h !! s = Some v →
      align v ref = inr v' →
      aligned_in_order ref ss (<[s := v']> h) h' →
      aligned_in_order ref (s :: ss) h h'.

(** The values the arrays [arrs] hold at vertex [j] on axis [ax]. *)
Definition column (ax : axis) (j : nat) (arrs : list (verts F)) : option (list F) :=
  mapM (λ arr : verts F, coord ax <$> arr !! j) arrs.

(** The arithmetic mean of a non-empty list: the sum, taken from left to
    right, divided by the number of values. *)
Definition mean_of (xs : list F) : option F :=
  match xs with
  | [] => None
  | x :: xs' => Some (fdiv (fold_left fadd xs' x) (fcount (length xs)))
  end.

(** [r] is the element-wise mean of the arrays [arrs]: they all have the
    shape of [r], and every coordinate of every vertex of [r] is the mean
    of that coordinate of that vertex over the arrays. *)
Definition is_mean_of (r : verts F) (arrs : list (verts F)) : Prop :=
  Forall (λ arr : verts F, length arr = length r) arrs ∧
  ∀ j p ax, r !! j = Some p → column ax j arrs ≫= mean_of = Some (coord ax p).

(** Two vertex counts numpy can broadcast against each other. *)
Definition compatible (a b : verts F) : Prop :=
  length a = length b ∨ length a = 1 ∨ length b = 1.

(** The squares of the entries of an array, vertex after vertex and, for
    each vertex, axis after axis. *)
Definition squares (d : verts F) : list F :=
  flat_map (λ p : vertex F,
              let '(x, y, z) := p in [fmul x x; fmul y y; fmul z z]) d.

(** The Euclidean norm of an array: the square root of the sum, over all
    vertices and axes, of the squares of its entries. *)
Definition euclidean_norm (d : verts F) : F :=
  fsqrt (fold_left fadd (squares d) f0).

(** The component differences of two arrays with the same number of
    vertices. *)
Definition difference (a b : verts F) : verts F :=
  zip_with (λ p q : vertex F,
              (fsub p.1.1 q.1.1, fsub p.1.2 q.1.2, fsub p.2 q.2)) a b.

(** The distance of the specification between two arrays with the same
    number of vertices: the Euclidean norm of their difference. *)
Definition distance (a b : verts F) : F :=
  euclidean_norm (difference a b).

(** The store a call leaves behind, however it ends. *)
Definition store_of {A : Type} (c : completion F E (A * gmap loc (verts F)))
  : gmap loc (verts F) :=
  match c with
  | Normal (_, h) => h
  | Raised _ _ h => h
  end.

(** The value a call hands back to its caller, when it returns. *)
Definition returned {A : Type} (c : completion F E (A * gmap loc (verts F)))
  : option A :=
  match c with
  | Normal (r, _) => Some r
  | Raised _ _ _ => None
  end.

(** A property [P] of the store that every assignment [s.v = align(s.v, ref)]
    to an object [s] of the collection keeps. *)
Definition kept_by_assignments (surf : list loc) (P : gmap loc (verts F) → Prop) : Prop :=
  ∀ h s v ref v',
    P h → s ∈ surf → h !! s = Some v → align v ref = inr v' → P (<[s := v']> h).

(** [align] never raises. *)
Definition always_returns : Prop :=
  ∀ src ref, ∃ v, align src ref = inr v.

(** What [align] returns has as many vertices as its source. *)
Definition keeps_vertex_count : Prop :=
  ∀ src ref v, align src ref = inr v → length v = length src.
End Vocabulary.

(** An exception of Python's own, as opposed to one a precondition check of
    the procedure would raise or one [align] raised. *)
Definition builtin_exception {E : Type} (e : pyexn E) : Prop :=
  match e with
  | IndexError | AttributeError | ValueError => True
  | AlignError _ => False
  end.

(** The sum of a list of reals. *)
Definition Rsum (xs : list R) : R := foldr Rplus 0%R xs.

(** The sum, over all vertices and axes, of the squares of the entries. *)
Definition sum_of_squares (d : verts R) : R :=
  Rsum ((λ p : vertex R, (p.1.1 * p.1.1 + p.1.2 * p.1.2 + p.2 * p.2)%R) <$> d).


(** ** Inputs for the examples *)

(** An [align] that hands its source back and never raises. *)
Definition identity_align {F : Type} (src ref : verts F) : Empty_set + verts F :=
  inr src.

(** An [align] that moves its source by 1 along every axis, whatever the
    reference: the reference never settles. *)
Definition drifting_align (src ref : verts float) : Empty_set + verts float :=
  inr (add_scalar src 1%float).

(** An [align] that drifts like [drifting_align] until the first coordinate
    of its source reaches 999, and from then on returns its source with one
    more vertex. *)
Definition growing_align (src ref : verts float) : Empty_set + verts float :=
  match src with
  | (x, _, _) :: _ =>
      if PrimFloat.ltb x 999%float then inr (add_scalar src 1%float)
      else inr (src ++ [(0, 0, 0)%float])
  | [] => inr []
  end.

(** An [align] that raises on a source whose first coordinate is negative. *)
Definition picky_align (src ref : verts float) : unit + verts float :=
  match src with
  | (x, _, _) :: _ => if PrimFloat.ltb x 0%float then inl tt else inr src
  | [] => inr src
  end.

(** The unit triangle of the specification, in exact arithmetic, and a
    store with one mesh holding it. *)
Definition triangle : verts R :=
  [(0, 0, 0); (1, 0, 0); (0, 1, 0)]%R.
Definition store_triangle : gmap loc (verts R) :=
  {[ 1%positive := triangle ]}.

(** binary64 stores: a segment at the origin; two points, the second with a
    negative first coordinate; a mesh without vertices and a point. *)
Definition store_segment : gmap loc (verts float) :=
  {[ 1%positive := [(0, 0, 0); (0, 0, 0)]%float ]}.
Definition store_two_points : gmap loc (verts float) :=
  <[ 1%positive := [(1, 0, 0)%float] ]> {[ 2%positive := [(-1, 0, 0)%float] ]}.
Definition store_no_vertex : gmap loc (verts float) :=
  <[ 1%positive := [] ]> {[ 2%positive := [(1, 0, 0)%float] ]}.

(** Two points to average. *)
Definition store_two_meshes : gmap loc (verts float) :=
  <[ 1%positive := [(0, 0, 0)%float] ]> {[ 2%positive := [(2, 4, 6)%float] ]}.

(** binary64 stores: a point whose coordinates are the binary64 number
    nearest to 1677721.6, and a point with coordinates 1e16. *)
Definition rounded_point : verts float :=
  [(0x1.999999999999ap+20, 0x1.999999999999ap+20, 0x1.999999999999ap+20)%float].
Definition store_rounded_point : gmap loc (verts float) :=
  {[ 1%positive := rounded_point ]}.
Definition huge_point : verts float :=
  [(1e16, 1e16, 1e16)%float].
Definition store_huge_point : gmap loc (verts float) :=
  {[ 1%positive := huge_point ]}.

(** The triangle and the quad in binary64, and a store holding both. *)
Definition triangle64 : verts float :=
  [(0, 0, 0); (1, 0, 0); (0, 1, 0)]%float.
Definition quad64 : verts float :=
  [(0, 0, 0); (1, 0, 0); (1, 1, 0); (0, 1, 0)]%float.
Definition store_triangle_and_quad64 : gmap loc (verts float) :=
  <[ 1%positive := triangle64 ]> {[ 2%positive := quad64 ]}.

(** binary64 stores: one mesh without vertices; a mesh without vertices
    and a quad; the point [huge_point] and a quad. *)
Definition store_empty_mesh : gmap loc (verts float) :=
  {[ 1%positive := [] ]}.
Definition store_empty_and_quad : gmap loc (verts float) :=
  <[ 1%positive := [] ]> {[ 2%positive := quad64 ]}.
Definition store_huge_and_quad : gmap loc (verts float) :=
  <[ 1%positive := huge_point ]> {[ 2%positive := quad64 ]}.

(** A point whose coordinates are the binary64 number nearest to 0.1. *)
Definition tenth_point : verts float :=
  [(0x1.999999999999ap-4, 0x1.999999999999ap-4, 0x1.999999999999ap-4)%float].
Definition store_tenth_point : gmap loc (verts float) :=
  {[ 1%positive := tenth_point ]}.

(** The store [store_segment] after 1000 drifts of its mesh. *)
Definition store_segment_at_cap : gmap loc (verts float) :=
  {[ 1%positive := [(1000, 1000, 1000); (1000, 1000, 1000)]%float ]}.

(** The store [store_segment] after its mesh has drifted once. *)
Definition store_segment_drifted : gmap loc (verts float) :=
  {[ 1%positive := [(1, 1, 1); (1, 1, 1)]%float ]}.

(** * Properties that hold for every element type *)

Section LoopFacts.
Context {F : Type} `{Scalar F} {E : Type}.
Variable align : verts F → verts F → E + verts F.
Variables (s0 : loc) (rest : list loc).

Lemma cond_true_lt st :
  cond (E:=E) st = Normal true → n_steps st < 1000.
Proof.
  unfold cond. destruct (broadcast2 _ _ _); [|discriminate].
  intros [= Hc]. apply andb_true_iff in Hc as [_ Hn].
  by apply Nat.ltb_lt.
Qed.

Lemma body_n_steps st st' :
  body align s0 rest st = Normal st' → n_steps st' = S (n_steps st).
Proof.
  unfold body. destruct (align_all _ _ _ _); [|discriminate].
  destruct (new_reference _ _ _); [|discriminate].
  intros [= <-]. simpl. lia.
Qed.

(** The relation and the function describe the same loop. *)
Lemma while_loop_runs fuel st c :
  while_loop align s0 rest fuel st = Some c →
  ∃ k, k ≤ fuel ∧ loop_runs align s0 rest st k c.
Proof.
  revert st. induction fuel as [|fuel IH]; intros st; simpl; [discriminate|].
  destruct (cond st) as [[]|l e h] eqn:Hc.
  - destruct (body align s0 rest st) as [st'|l e h] eqn:Hb.
    + intros Hw. destruct (IH _ Hw) as (k & Hk & Hr).
      exists (S k). split; [lia|]. by eapply runs_iterate.
    + intros [= <-]. exists 1. split; [lia|]. by apply runs_body_raises.
  - intros [= <-]. exists 0. split; [lia|]. by apply runs_exit.
  - intros [= <-]. exists 0. split; [lia|]. by apply runs_test_raises.
Qed.

Lemma loop_runs_while st k c :
  loop_runs align s0 rest st k c →
  ∀ fuel, k < fuel → while_loop align s0 rest fuel st = Some c.
Proof.
  induction 1 as [st l e h Hc|st Hc|st l e h Hc Hb|st st' k c Hc Hb _ IH];
    intros [|fuel] Hf; try lia; simpl; rewrite Hc; try done.
  - by rewrite Hb.
  - rewrite Hb. apply IH. lia.
Qed.

(** Every execution of the body raises the counter towards the cap. *)
Lemma loop_runs_bound st k c :
  loop_runs align s0 rest st k c → k = 0 ∨ n_steps st + k ≤ 1000.
Proof.
  induction 1 as [st l e h Hc|st Hc|st l e h Hc Hb|st st' k c Hc Hb _ IH].
  - by left.
  - by left.
  - right. apply cond_true_lt in Hc. lia.
  - right. apply cond_true_lt in Hc. apply body_n_steps in Hb.
    destruct IH as [->|IH]; lia.
Qed.

(** The loop ends: once the fuel exceeds the distance to the cap the
    function has a result. *)
Lemma while_loop_fuel fuel st :
  1000 - n_steps st < fuel → is_Some (while_loop align s0 rest fuel st).
Proof.
  revert st. induction fuel as [|fuel IH]; intros st Hf; [lia|]. simpl.
  destruct (cond st) as [[]|l e h] eqn:Hc; [|done..].
  destruct (body align s0 rest st) as [st'|l e h] eqn:Hb; [|done].
  apply IH. apply cond_true_lt in Hc. apply body_n_steps in Hb. lia.
Qed.

Lemma loop_runs_total st :
  ∃ k c, loop_runs align s0 rest st k c.
Proof.
  destruct (while_loop_fuel (S (1000 - n_steps st)) st) as [c Hc]; [lia|].
  apply while_loop_runs in Hc as (k & _ & Hr). eauto.
Qed.

Lemma loop_runs_det st k c k' c' :
  loop_runs align s0 rest st k c → loop_runs align s0 rest st k' c' →
  k = k' ∧ c = c'.
Proof.
  intros Hr. revert k' c'.
  induction Hr as [st l e h Hc|st Hc|st l e h Hc Hb|st st' k c Hc Hb _ IH];
    intros k' c' Hr';
    inversion Hr' as [st1 l1 e1 h1 Hc1|st1 Hc1|st1 l1 e1 h1 Hc1 Hb1
                     |st1 st1' k1 c1 Hc1 Hb1 Hr1];
    subst; try congruence.
  - split; [done|congruence].
  - done.
  - split; [done|congruence].
  - assert (st1' = st') as -> by congruence.
    by destruct (IH _ _ Hr1) as [-> ->].
Qed.

Lemma iterates_n_steps k st st' :
  iterates align s0 rest k st st' → n_steps st' = n_steps st + k.
Proof.
  induction 1 as [st|k st st' st'' Hc Hb _ IH]; [lia|].
  apply body_n_steps in Hb. lia.
Qed.

Lemma iterates_loop_runs k st st' j c :
  iterates align s0 rest k st st' →
  loop_runs align s0 rest st' j c →
  loop_runs align s0 rest st (k + j) c.
Proof.
  induction 1 as [st|k st st' st'' Hc Hb _ IH]; intros Hr; [done|].
  simpl. eapply runs_iterate; eauto.
Qed.

Lemma body_entries_runs fuel st c :
  while_loop align s0 rest fuel st = Some c →
  loop_runs align s0 rest st (body_entries align s0 rest fuel st) c.
Proof.
  revert st. induction fuel as [|fuel IH]; intros st; simpl; [discriminate|].
  destruct (cond st) as [[]|l e h] eqn:Hc.
  - destruct (body align s0 rest st) as [st'|l e h] eqn:Hb.
    + intros Hw. eapply runs_iterate; eauto.
    + intros [= <-]. by apply runs_body_raises.
  - intros [= <-]. by apply runs_exit.
  - intros [= <-]. by apply runs_test_raises.
Qed.

Lemma body_entries_exit fuel st :
  cond (E:=E) st = Normal false → body_entries align s0 rest fuel st = 0.
Proof. intros Hc. destruct fuel; simpl; [done|]. by rewrite Hc. Qed.

Lemma broadcast2_compatible op (a b : verts F) :
  compatible a b → is_Some (broadcast2 op a b).
Proof.
  unfold broadcast2. intros Hc. case_decide; [done|].
  destruct Hc as [?|[Ha|Hb]]; [done| |].
  - destruct a as [|p [|]]; try done.
  - destruct b as [|q [|]]; try done.
    destruct a as [|p [|]]; done.
Qed.

Lemma broadcast2_same_length op (a b : verts F) :
  length a = length b → broadcast2 op a b = Some (zip_with (vlift2 op) a b).
Proof. unfold broadcast2. intros. by case_decide. Qed.

(** At the cap the test is false, whatever the distance, as soon as the
    two references can be subtracted. *)
Lemma cond_at_cap st :
  1000 ≤ n_steps st → compatible (ref_v st) (old_ref_v st) →
  cond (E:=E) st = Normal false.
Proof.
  intros Hn Hc. unfold cond.
  destruct (broadcast2_compatible fsub _ _ Hc) as [d ->].
  f_equal. apply andb_false_iff. right. apply Nat.ltb_ge. lia.
Qed.
End LoopFacts.

(** * What one iteration does *)

Section Iteration.
Context {F : Type} `{Scalar F} {E : Type}.
Variable align : verts F → verts F → E + verts F.

Lemma align_all_in_order ref ss h h' :
  align_all align ref ss h = Normal h' ↔ aligned_in_order align ref ss h h'.
Proof.
  split.
  - revert h. induction ss as [|s ss IH]; intros h; simpl.
    + intros [= <-]. constructor.
    + destruct (h !! s) as [v|] eqn:Hs; [|discriminate].
      destruct (align v ref) as [e|v'] eqn:Ha; [discriminate|].
      intros Hr. econstructor; eauto.
  - induction 1 as [h|s ss h v v' h' Hs Ha _ IH]; simpl; [done|].
    by rewrite Hs, Ha.
Qed.

Lemma coord_vlift2 op ax (p q : vertex F) :
  coord ax (vlift2 op p q) = op (coord ax p) (coord ax q).
Proof. destruct p as [[??]?], q as [[??]?], ax; reflexivity. Qed.

Lemma same_shape_Forall (a : verts F) bs :
  same_shape a bs = true ↔ Forall (λ b : verts F, length b = length a) bs.
Proof.
  unfold same_shape. rewrite forallb_forall, Forall_forall.
  split; intros Hs b Hb.
  - apply Nat.eqb_eq, Hs. by apply list_elem_of_In.
  - apply Nat.eqb_eq, Hs. by apply list_elem_of_In.
Qed.

Lemma length_sum_rows bs (a : verts F) :
  Forall (λ b : verts F, length b = length a) bs →
  length (fold_left (zip_with (vlift2 fadd)) bs a) = length a.
Proof.
  revert a. induction bs as [|b bs IH]; intros a Hs; simpl; [done|].
  inversion Hs as [|?? Hb Hbs]; subst.
  assert (length (zip_with (vlift2 fadd) a b) = length a) as Hz.
  { rewrite length_zip_with. lia. }
  rewrite IH; [done|]. rewrite Hz. done.
Qed.

(** A vertex of the row-by-row sum holds, on each axis, the left-to-right
    sum of the column. *)
Lemma lookup_sum_rows ax j bs (a : verts F) p :
  Forall (λ b : verts F, length b = length a) bs →
  a !! j = Some p →
  ∃ q xs, fold_left (zip_with (vlift2 fadd)) bs a !! j = Some q ∧
          column ax j bs = Some xs ∧
          coord ax q = fold_left fadd xs (coord ax p).
Proof.
  revert a p. induction bs as [|b bs IH]; intros a p Hs Hj; simpl.
  - exists p, []. done.
  - inversion Hs as [|?? Hb Hbs]; subst.
    destruct (lookup_lt_is_Some_2 b j) as [q Hq].
    { rewrite Hb. by eapply lookup_lt_Some. }
    assert (zip_with (vlift2 fadd) a b !! j = Some (vlift2 fadd p q)) as Hz.
    { rewrite lookup_zip_with, Hj. simpl. by rewrite Hq. }
    destruct (IH (zip_with (vlift2 fadd) a b) (vlift2 fadd p q))
      as (r & xs & Hr & Hxs & Hc); [|done|].
    { rewrite length_zip_with, Hb, Nat.min_id. done. }
    exists r, (coord ax q :: xs). split; [done|]. split.
    + unfold column in *. simpl. rewrite Hq. simpl. by rewrite Hxs.
    + simpl. by rewrite Hc, coord_vlift2.
Qed.

Lemma column_length ax j (arrs : list (verts F)) xs :
  column ax j arrs = Some xs → length xs = length arrs.
Proof.
  unfold column. intros Hm. apply mapM_Some in Hm.
  symmetry. by eapply Forall2_length.
Qed.

Lemma mean_axis0_is_mean (a : verts F) bs :
  same_shape a bs = true → is_mean_of (mean_axis0 a bs) (a :: bs).
Proof.
  intros Hs. apply same_shape_Forall in Hs.
  assert (length (mean_axis0 a bs) = length a) as Hlen.
  { unfold mean_axis0. by rewrite length_fmap, length_sum_rows. }
  split.
  - rewrite Hlen. constructor; [done|]. done.
  - intros j p ax Hj. unfold mean_axis0 in Hj.
    rewrite list_lookup_fmap in Hj.
    destruct (lookup_lt_is_Some_2 a j) as [pa Hpa].
    { rewrite <- Hlen. apply lookup_lt_is_Some_1. unfold mean_axis0.
      rewrite list_lookup_fmap. eauto. }
    destruct (lookup_sum_rows ax j bs a pa Hs Hpa) as (q & xs & Hq & Hxs & Hc).
    rewrite Hq in Hj. simpl in Hj. injection Hj as <-.
    unfold column in *. simpl. rewrite Hpa. simpl. rewrite Hxs. simpl.
    rewrite coord_vlift2. simpl.
    apply column_length in Hxs as ->.
    rewrite Hc. by destruct ax.
Qed.

Lemma is_mean_of_unique (r r' : verts F) arrs :
  arrs ≠ [] → is_mean_of r arrs → is_mean_of r' arrs → r = r'.
Proof.
  intros Hne [Hl Hm] [Hl' Hm'].
  destruct arrs as [|a arrs]; [done|].
  assert (length r = length r') as Hlen.
  { inversion Hl; inversion Hl'; subst. congruence. }
  apply list_eq. intros j.
  destruct (r !! j) as [p|] eqn:Hp.
  - destruct (lookup_lt_is_Some_2 r' j) as [p' Hp'].
    { rewrite <- Hlen. by eapply lookup_lt_Some. }
    rewrite Hp'. f_equal.
    pose proof (Hm j p X Hp) as Hx. pose proof (Hm' j p' X Hp') as Hx'.
    pose proof (Hm j p Y Hp) as Hy. pose proof (Hm' j p' Y Hp') as Hy'.
    pose proof (Hm j p Z Hp) as Hz. pose proof (Hm' j p' Z Hp') as Hz'.
    rewrite Hx in Hx'. rewrite Hy in Hy'. rewrite Hz in Hz'.
    destruct p as [[??]?], p' as [[??]?]. simpl in *. congruence.
  - symmetry. apply lookup_ge_None. rewrite <- Hlen.
    by apply lookup_ge_None.
Qed.

Lemma new_reference_Normal s0 rest h r :
  new_reference (E:=E) s0 rest h = Normal r ↔
  ∃ a bs, h !! s0 = Some a ∧ mapM (λ s, h !! s) rest = Some bs ∧
          same_shape a bs = true ∧ r = mean_axis0 a bs.
Proof.
  unfold new_reference. split.
  - destruct (h !! s0) as [a|]; [|discriminate].
    destruct (mapM _ rest) as [bs|]; [|discriminate].
    destruct (same_shape a bs) eqn:Hs; [|discriminate].
    intros [= <-]. eauto 10.
  - intros (a & bs & -> & -> & -> & ->). done.
Qed.

(** What a completed execution of the body has computed. *)
Lemma body_Normal_inv s0 rest st st' :
  body align s0 rest st = Normal st' →
  old_ref_v st' = ref_v st ∧
  n_steps st' = n_steps st + 1 ∧
  align_all align (ref_v st) (s0 :: rest) (heap st) = Normal (heap st') ∧
  ∃ a bs, heap st' !! s0 = Some a ∧
          mapM (λ s, heap st' !! s) rest = Some bs ∧
          same_shape a bs = true ∧
          ref_v st' = mean_axis0 a bs.
Proof.
  unfold body.
  destruct (align_all _ _ _ _) as [h|] eqn:Ha; [|discriminate].
  destruct (new_reference s0 rest h) as [r|] eqn:Hr; [|discriminate].
  intros [= <-]. simpl.
  apply new_reference_Normal in Hr as (a & bs & Hs0 & Hbs & Hs & ->).
  eauto 10.
Qed.

(** C1.  One execution of the loop body, for a collection [s0 :: rest]
    (non-empty): the body completes with the state [st'] exactly when
    (1) the previous reference of [st'] is the reference the iteration
    started with, (2) the store of [st'] is obtained by going through the
    collection in order and replacing the array of each mesh by [align] of
    the array it holds onto that reference, and (3) the reference of [st']
    is the element-wise mean, for every vertex index and every axis, over
    the meshes of the collection, of the arrays they hold after (2).  The
    counter is one higher. *)
Theorem iteration_steps s0 rest st st' :
  body align s0 rest st = Normal st' ↔
  old_ref_v st' = ref_v st ∧
  n_steps st' = n_steps st + 1 ∧
  aligned_in_order align (ref_v st) (s0 :: rest) (heap st) (heap st') ∧
  ∃ arrs, mapM (λ s, heap st' !! s) (s0 :: rest) = Some arrs ∧
          is_mean_of (ref_v st') arrs.
Proof.
  unfold body. split.
  - destruct (align_all _ _ _ _) as [h|] eqn:Ha; [|discriminate].
    destruct (new_reference s0 rest h) as [r|] eqn:Hr; [|discriminate].
    intros [= <-]. simpl.
    apply align_all_in_order in Ha.
    apply new_reference_Normal in Hr as (a & bs & Hs0 & Hbs & Hs & ->).
    repeat split; try done.
    exists (a :: bs). split.
    + simpl. rewrite Hs0. simpl. by rewrite Hbs.
    + by apply mean_axis0_is_mean.
  - intros (Ho & Hn & Ha & arrs & Hm & Hmean).
    apply align_all_in_order in Ha. rewrite Ha.
    simpl in Hm.
    destruct (heap st' !! s0) as [a|] eqn:Hs0; [|discriminate].
    simpl in Hm.
    destruct (mapM _ rest) as [bs|] eqn:Hbs; [|discriminate].
    injection Hm as <-.
    assert (same_shape a bs = true) as Hs.
    { apply same_shape_Forall. destruct Hmean as [Hl _].
      inversion Hl as [|?? Hla Hlbs]; subst.
      eapply Forall_impl; [exact Hlbs|]. simpl. intros; congruence. }
    assert (new_reference (E:=E) s0 rest (heap st') = Normal (mean_axis0 a bs))
      as ->.
    { apply new_reference_Normal. eauto 10. }
    f_equal. destruct st' as [r o n h]. simpl in *. subst o n. f_equal.
    apply (is_mean_of_unique _ _ (a :: bs)); [done| |done].
    by apply mean_axis0_is_mean.
Qed.
End Iteration.

(** * What the procedure leaves untouched *)

Section Invariants.
Context {F : Type} `{Scalar F} {E : Type}.
Variable align : verts F → verts F → E + verts F.

Lemma align_all_keeps surf P ref ss h :
  kept_by_assignments align surf P → ss ⊆ surf → P h →
  match align_all align ref ss h with
  | Normal h' => P h'
  | Raised _ _ h' => P h'
  end.
Proof.
  intros HP. revert h. induction ss as [|s ss IH]; intros h Hss Hh; simpl; [done|].
  destruct (h !! s) as [v|] eqn:Hs; [|done].
  destruct (align v ref) as [e|v'] eqn:Ha; [done|].
  apply IH; [set_solver|]. eapply HP; eauto. set_solver.
Qed.

Lemma body_keeps P s0 rest st :
  kept_by_assignments align (s0 :: rest) P → P (heap st) →
  match body align s0 rest st with
  | Normal st' => P (heap st')
  | Raised _ _ h' => P h'
  end.
Proof.
  intros HP Hh. unfold body.
  pose proof (align_all_keeps (s0 :: rest) P (ref_v st) (s0 :: rest) (heap st)
                HP ltac:(done) Hh) as Ha.
  destruct (align_all _ _ _ _) as [h|l e h]; [|done].
  unfold new_reference.
  destruct (h !! s0); [|done].
  destruct (mapM _ rest); [|done].
  by destruct (same_shape _ _).
Qed.

Lemma while_loop_keeps P s0 rest fuel st c :
  kept_by_assignments align (s0 :: rest) P → P (heap st) →
  while_loop align s0 rest fuel st = Some c →
  match c with
  | Normal st' => P (heap st')
  | Raised _ _ h' => P h'
  end.
Proof.
  intros HP. revert st. induction fuel as [|fuel IH]; intros st Hh; simpl;
    [discriminate|].
  unfold cond. destruct (broadcast2 _ _ _) as [d|]; [|by intros [= <-]].
  destruct (fgt _ _ && _); [|by intros [= <-]].
  pose proof (body_keeps P s0 rest st HP Hh) as Hb.
  destruct (body align s0 rest st) as [st'|l e h]; [|by intros [= <-]].
  by apply IH.
Qed.

Lemma generalized_procrustes_keeps P fuel surf h c :
  kept_by_assignments align surf P → P h →
  generalized_procrustes_fuel align fuel surf h = Some c →
  P (store_of c).
Proof.
  intros HP Hh. unfold generalized_procrustes_fuel.
  destruct surf as [|s0 rest]; [by intros [= <-]|].
  destruct (h !! s0) as [v0|]; [|by intros [= <-]].
  destruct (while_loop _ _ _ _ _) as [c'|] eqn:Hw; [|discriminate].
  pose proof (while_loop_keeps P s0 rest fuel (init v0 h) c' HP Hh Hw) as Hc.
  destruct c' as [st|l e h']; by intros [= <-].
Qed.

Lemma generalized_procrustes_total fuel surf h :
  1000 < fuel → is_Some (generalized_procrustes_fuel align fuel surf h).
Proof.
  intros Hf. unfold generalized_procrustes_fuel.
  destruct surf as [|s0 rest]; [done|].
  destruct (h !! s0) as [v0|]; [|done].
  destruct (while_loop_fuel align s0 rest fuel (init v0 h)) as [c Hc].
  { simpl. lia. }
  rewrite Hc. by destruct c.
Qed.

Lemma generalized_procrustes_returns_None fuel surf h c r :
  generalized_procrustes_fuel align fuel surf h = Some c →
  returned c = Some r → r = None.
Proof.
  unfold generalized_procrustes_fuel.
  destruct surf as [|s0 rest]; [by intros [= <-]|].
  destruct (h !! s0) as [v0|]; [|by intros [= <-]].
  destruct (while_loop _ _ _ _ _) as [[st|l e h']|]; intros [= <-]; simpl;
    congruence.
Qed.

(** C9.  The procedure hands no value back: when it returns, the value is
    Python's [None]; the reference it computed is dropped.  What it leaves
    behind is the store, and there only the vertex arrays of the meshes of
    the collection can differ from before: every other object holds what
    it held, and no object appears or disappears. *)
Theorem only_the_meshes_are_mutated surf h :
  ∃ c, generalized_procrustes align surf h = Some c ∧
       (∀ r, returned c = Some r → r = None) ∧
       (∀ l, l ∉ surf → store_of c !! l = h !! l) ∧
       dom (store_of c) = dom h.
Proof.
  destruct (generalized_procrustes_total 1001 surf h) as [c Hc]; [lia|].
  exists c. split; [done|]. split; [|split].
  - intros r. by eapply generalized_procrustes_returns_None.
  - intros l Hl.
    apply (generalized_procrustes_keeps (λ h', h' !! l = h !! l) _ _ _ _)
      with (3 := Hc); [|done].
    intros h' s v ref v' Hh' Hs _ _.
    rewrite lookup_insert_ne; [done|]. set_solver.
  - apply (generalized_procrustes_keeps (λ h', dom h' = dom h) _ _ _ _)
      with (3 := Hc); [|done].
    intros h' s v ref v' Hh' _ Hv _.
    apply elem_of_dom_2 in Hv. rewrite dom_insert_L, <- Hh'.
    apply subseteq_union_1_L. by apply singleton_subseteq_l.
Qed.
End Invariants.

(** * The iteration cap, failures of [align], the empty first mesh *)

Section Termination.
Context {F : Type} `{Scalar F} {E : Type}.
Variable align : verts F → verts F → E + verts F.

Lemma generalized_procrustes_of_run s0 rest h v0 k c fuel :
  h !! s0 = Some v0 →
  loop_runs align s0 rest (init v0 h) k c →
  1000 < fuel →
  generalized_procrustes_fuel align fuel (s0 :: rest) h =
    Some match c with
         | Normal st => Normal (None, heap st)
         | Raised l e h' => Raised l e h'
         end.
Proof.
  intros Hs0 Hr Hf. unfold generalized_procrustes_fuel. rewrite Hs0.
  rewrite (loop_runs_while align s0 rest _ k c Hr).
  - by destruct c.
  - apply loop_runs_bound in Hr as [->|Hr]; simpl in *; lia.
Qed.

Lemma generalized_procrustes_fuel_irrelevant surf h fuel fuel' :
  1000 < fuel → 1000 < fuel' →
  generalized_procrustes_fuel align fuel surf h =
  generalized_procrustes_fuel align fuel' surf h.
Proof.
  intros Hf Hf'. destruct surf as [|s0 rest]; [done|].
  destruct (h !! s0) as [v0|] eqn:Hs0; [|by simpl; rewrite Hs0].
  destruct (loop_runs_total align s0 rest (init v0 h)) as (k & c & Hr).
  by rewrite !(generalized_procrustes_of_run s0 rest h v0 k c).
Qed.

(** With an [align] that keeps the vertex count, the mesh [s0], the
    reference and the previous reference keep one and the same vertex
    count through every iteration. *)
Lemma body_vertex_count s0 rest st st' a :
  keeps_vertex_count align →
  heap st !! s0 = Some a → length a = length (ref_v st) →
  body align s0 rest st = Normal st' →
  ∃ a', heap st' !! s0 = Some a' ∧ length a' = length (ref_v st') ∧
        length (ref_v st') = length (old_ref_v st').
Proof.
  intros Hk Ha Hlen Hb.
  pose proof (body_keeps align
                (λ h', length <$> h' !! s0 = Some (length a)) s0 rest st) as HP.
  rewrite Hb in HP.
  assert (length <$> heap st' !! s0 = Some (length a)) as Hs0.
  { apply HP; [|by rewrite Ha].
    intros h' s v ref v' Hh' _ Hv Hal.
    destruct (decide (s = s0)) as [->|Hne].
    - rewrite lookup_insert_eq. simpl. rewrite Hv in Hh'. simpl in Hh'.
      by rewrite (Hk _ _ _ Hal).
    - by rewrite lookup_insert_ne. }
  apply body_Normal_inv in Hb as (Ho & _ & _ & a' & bs & Ha' & _ & Hs & Hr).
  rewrite Ha' in Hs0. injection Hs0 as Hs0.
  destruct (mean_axis0_is_mean a' bs Hs) as [Hl _].
  inversion Hl as [|?? Hla _]; subst.
  exists a'. split; [done|]. rewrite Hr. split; [done|]. congruence.
Qed.

Lemma iterates_vertex_count s0 rest k st st' :
  keeps_vertex_count align →
  iterates align s0 rest k st st' →
  (∃ a, heap st !! s0 = Some a ∧ length a = length (ref_v st)) →
  length (ref_v st) = length (old_ref_v st) →
  length (ref_v st') = length (old_ref_v st').
Proof.
  intros Hk. induction 1 as [st|k st st' st'' Hc Hb _ IH]; [done|].
  intros (a & Ha & Hlen) _.
  destruct (body_vertex_count s0 rest st st' a Hk Ha Hlen Hb)
    as (a' & Ha' & Hlen' & Hro).
  apply IH; eauto.
Qed.

(** C2.  Whatever [align] returns, the procedure ends (its result does not
    depend on the fuel once there is enough of it) and the loop enters its
    body at most 1000 times.  When 1000 executions of the body have
    completed, the procedure returns normally, raising nothing, with the
    store as the last iteration left it, whatever the distance: this holds
    whenever the reference and the previous reference have vertex counts
    that can be subtracted, and so for every [align] that returns as many
    vertices as its source has (the transformed source vertices), for which
    the two references have equal vertex counts at every test of the
    loop. *)
Theorem iteration_cap surf h :
  (∃ c, ∀ fuel, 1000 < fuel →
        generalized_procrustes_fuel align fuel surf h = Some c) ∧
  ∀ s0 rest v0, surf = s0 :: rest → h !! s0 = Some v0 →
    (∀ k c, loop_runs align s0 rest (init v0 h) k c → k ≤ 1000) ∧
    (∀ st, iterates align s0 rest 1000 (init v0 h) st →
           compatible (ref_v st) (old_ref_v st) →
           generalized_procrustes align surf h = Some (Normal (None, heap st))) ∧
    (keeps_vertex_count align →
     (∀ k st, iterates align s0 rest k (init v0 h) st →
              length (ref_v st) = length (old_ref_v st)) ∧
     (∀ st, iterates align s0 rest 1000 (init v0 h) st →
            cond (E:=E) st = Normal false ∧
            loop_runs align s0 rest (init v0 h) 1000 (Normal st) ∧
            generalized_procrustes align surf h =
              Some (Normal (None, heap st)))).
Proof.
  assert (∀ s0 rest v0 st,
            h !! s0 = Some v0 →
            iterates align s0 rest 1000 (init v0 h) st →
            compatible (ref_v st) (old_ref_v st) →
            cond (E:=E) st = Normal false ∧
            loop_runs align s0 rest (init v0 h) 1000 (Normal st) ∧
            generalized_procrustes align (s0 :: rest) h =
              Some (Normal (None, heap st))) as Hcap.
  { intros s0 rest v0 st Hs0 Hit Hc.
    assert (n_steps st = 1000) as Hn.
    { apply iterates_n_steps in Hit. simpl in Hit. lia. }
    assert (cond (E:=E) st = Normal false) as Hf.
    { apply cond_at_cap; [lia|done]. }
    assert (loop_runs align s0 rest (init v0 h) (1000 + 0) (Normal st)) as Hr.
    { eapply iterates_loop_runs; [done|]. by apply runs_exit. }
    split; [done|]. split; [exact Hr|].
    unfold generalized_procrustes.
    rewrite (generalized_procrustes_of_run s0 rest h v0 _ _ 1001 Hs0 Hr);
      [done|lia]. }
  assert (∀ s0 rest v0 k st,
            keeps_vertex_count align →
            iterates align s0 rest k (init v0 h) st →
            h !! s0 = Some v0 →
            length (ref_v st) = length (old_ref_v st)) as Hlen.
  { intros s0 rest v0 k st Hk Hit Hs0.
    eapply iterates_vertex_count; eauto.
    simpl. unfold add_scalar. by rewrite length_fmap. }
  split.
  - destruct (generalized_procrustes_total align 1001 surf h) as [c Hc]; [lia|].
    exists c. intros fuel Hf. rewrite <- Hc.
    apply generalized_procrustes_fuel_irrelevant; lia.
  - intros s0 rest v0 -> Hs0. split; [|split].
    + intros k c Hr. apply loop_runs_bound in Hr as [->|Hr]; simpl in *; lia.
    + intros st Hit Hc. by apply (Hcap s0 rest v0 st).
    + intros Hk. split.
      * intros k st Hit. by eapply Hlen.
      * intros st Hit. apply (Hcap s0 rest v0 st); [done..|].
        left. by eapply Hlen.
Qed.

Lemma align_all_app ref pre ss h h1 :
  aligned_in_order align ref pre h h1 →
  align_all align ref (pre ++ ss) h = align_all align ref ss h1.
Proof.
  induction 1 as [h|s pre h v v' h' Hs Ha _ IH]; simpl; [done|].
  by rewrite Hs, Ha.
Qed.

(** C8.  When a call of [align] raises, in whatever iteration and at
    whatever mesh of the collection, the procedure ends at once with that
    very exception, raised from line 19: nothing catches it and no call is
    repeated.  The store is left as it was at that moment: the meshes
    aligned in earlier iterations and those before the failing one in this
    iteration keep their new arrays. *)
Theorem align_failure_propagates s0 rest h v0 k st pre s post h1 v e :
  h !! s0 = Some v0 →
  iterates align s0 rest k (init v0 h) st →
  cond (E:=E) st = Normal true →
  s0 :: rest = pre ++ s :: post →
  aligned_in_order align (ref_v st) pre (heap st) h1 →
  h1 !! s = Some v →
  align v (ref_v st) = inl e →
  generalized_procrustes align (s0 :: rest) h =
    Some (Raised line19 (AlignError e) h1).
Proof.
  intros Hs0 Hit Hc Hsurf Hpre Hs Ha.
  assert (body align s0 rest st = Raised line19 (AlignError e) h1) as Hb.
  { unfold body. rewrite Hsurf, (align_all_app _ pre _ _ h1 Hpre). simpl.
    by rewrite Hs, Ha. }
  pose proof (runs_body_raises align s0 rest st _ _ _ Hc Hb) as Hr.
  pose proof (iterates_loop_runs align s0 rest _ _ _ _ _ Hit Hr) as Hr'.
  unfold generalized_procrustes.
  rewrite (generalized_procrustes_of_run s0 rest h v0 _ _ 1001 Hs0 Hr'); [done|lia].
Qed.

(** An empty reference ends the procedure before the first iteration. *)
Lemma empty_reference_skips s0 rest h :
  fgt (fsqrt f0) tol = false →
  h !! s0 = Some [] →
  cond (E:=E) (init [] h) = Normal false ∧
  loop_runs align s0 rest (init [] h) 0 (Normal (init [] h)) ∧
  generalized_procrustes align (s0 :: rest) h = Some (Normal (None, h)).
Proof.
  intros Hz Hs0.
  assert (cond (E:=E) (init [] h) = Normal false) as Hc.
  { unfold cond, norm, sqnorm. simpl. by rewrite Hz. }
  pose proof (runs_exit align s0 rest _ Hc) as Hr.
  split; [done|]. split; [done|].
  unfold generalized_procrustes.
  rewrite (generalized_procrustes_of_run s0 rest h [] _ _ 1001 Hs0 Hr); [done|lia].
Qed.

(** C10.  When the first mesh of the collection has no vertex, the
    distance between the reference and the sentinel is the square root of
    an empty sum, which does not exceed the tolerance; the test of the loop
    is false at once, the body is never entered and the procedure returns
    with the store it was given.  (The hypothesis on the arithmetic holds
    for the reals and for binary64.) *)
Theorem empty_first_mesh_skips_loop s0 rest h :
  fgt (fsqrt f0) tol = false →
  h !! s0 = Some [] →
  cond (E:=E) (init [] h) = Normal false ∧
  loop_runs align s0 rest (init [] h) 0 (Normal (init [] h)) ∧
  body_entries align s0 rest 1001 (init [] h) = 0 ∧
  generalized_procrustes align (s0 :: rest) h = Some (Normal (None, h)).
Proof.
  intros Hz Hs0.
  destruct (empty_reference_skips s0 rest h Hz Hs0) as (Hc & Hr & Hg).
  repeat split; try done. by apply body_entries_exit.
Qed.

(** C6 (amended).  On an empty collection the procedure ends in its first
    statement: [surf[0]] on line 9 raises Python's [IndexError].  Nothing
    has been assigned by then: the store is the one the call was given. *)
Theorem empty_collection_raises h :
  generalized_procrustes align [] h = Some (Raised line9 IndexError h).
Proof. reflexivity. Qed.
End Termination.

(** * Meshes that all hold one array *)

Section Copies.
Context {F : Type} `{Scalar F} {E : Type}.
Variable align : verts F → verts F → E + verts F.

(** An alignment pass that hands every array back leaves the store as it
    is, also when an object occurs more than once. *)
Lemma align_all_identical (c : verts F) ss h :
  (∀ s, s ∈ ss → h !! s = Some c) → align c c = inr c →
  align_all align c ss h = Normal h.
Proof.
  intros Hall Ha. induction ss as [|s ss IH]; simpl; [done|].
  rewrite (Hall s) by (by left). rewrite Ha.
  rewrite insert_id by (apply Hall; by left).
  apply IH. intros s' Hs'. apply Hall. by right.
Qed.

Lemma lookups_identical (c : verts F) ss (h : gmap loc (verts F)) :
  (∀ s, s ∈ ss → h !! s = Some c) →
  mapM (λ s, h !! s) ss = Some (replicate (length ss) c).
Proof.
  intros Hall. apply mapM_Some_2.
  induction ss as [|s ss IH]; simpl; constructor.
  - apply Hall. by left.
  - apply IH. intros s' Hs'. apply Hall. by right.
Qed.

Lemma same_shape_replicate (c : verts F) n :
  same_shape c (replicate n c) = true.
Proof.
  apply same_shape_Forall. induction n; csimpl; constructor; done.
Qed.
End Copies.

(** * Exact arithmetic: the distance, the sentinel, identical meshes

    Over the real numbers the first test of the loop is true for every
    first mesh with a vertex, and the mean of copies of one array is that
    array. *)

Section Exact.
Context {E : Type}.
Variable align : verts R → verts R → E + verts R.
Local Open Scope R_scope.

Lemma fgt_R (x y : R) : fgt x y = true ↔ x > y.
Proof. simpl. destruct (Rgt_dec x y); split; (done || lra). Qed.

Lemma Rsum_nil : Rsum [] = 0.
Proof. reflexivity. Qed.

Lemma Rsum_cons x xs : Rsum (x :: xs) = x + Rsum xs.
Proof. reflexivity. Qed.

Lemma fold_left_squares xs acc :
  fold_left (λ acc x, acc + x * x) xs acc = acc + Rsum ((λ x, x * x) <$> xs).
Proof.
  unfold Rsum. revert acc. induction xs as [|x xs IH]; intros acc; csimpl.
  - lra.
  - rewrite IH. lra.
Qed.

(** The dot product of the flattened array with itself is the sum of the
    squares of its entries. *)
Lemma sqnorm_ravel (d : verts R) : sqnorm (ravel d) = sum_of_squares d.
Proof.
  unfold sqnorm, sum_of_squares. simpl. rewrite fold_left_squares.
  rewrite Rplus_0_l.
  unfold Rsum. induction d as [|[[x y] z] d IH]; csimpl; [done|].
  rewrite IH. lra.
Qed.

Lemma sum_of_squares_nonneg (d : verts R) : 0 <= sum_of_squares d.
Proof.
  unfold sum_of_squares, Rsum. induction d as [|[[x y] z] d IH]; csimpl.
  - lra.
  - nra.
Qed.

Lemma sqrt_0_below_tol : fgt (fsqrt (f0 : R)) tol = false.
Proof.
  apply not_true_is_false. rewrite fgt_R. simpl. rewrite sqrt_0. lra.
Qed.

Lemma sqrt_above_tol x : 1 <= x → sqrt x > 1e-11.
Proof.
  intros Hx. apply Rlt_le_trans with 1; [lra|].
  rewrite <- sqrt_1. by apply sqrt_le_1_alt.
Qed.

(** The test of the loop, in terms of the difference of the references. *)
Lemma cond_R (st : state R) :
  cond (E:=E) st = Normal true ↔
  ∃ d, broadcast2 Rminus (ref_v st) (old_ref_v st) = Some d ∧
       sqrt (sum_of_squares d) > 1e-11 ∧ (n_steps st < 1000)%nat.
Proof.
  unfold cond. change (@fsub R R_scalar) with Rminus.
  destruct (broadcast2 _ _ _) as [d|]; [|split; [done|by intros (? & ? & ?)]].
  unfold norm. rewrite sqnorm_ravel. split.
  - intros [= Hb]. apply andb_true_iff in Hb as [Hn Hk].
    apply fgt_R in Hn. apply Nat.ltb_lt in Hk. eauto.
  - intros (d' & [= <-] & Hn & Hk). f_equal.
    apply andb_true_iff. split; [by apply fgt_R|by apply Nat.ltb_lt].
Qed.

(** The sentinel of line 10 lies at distance [sqrt (3 n)] from a reference
    of [n] vertices. *)
Lemma sentinel_sum_of_squares (v0 : verts R) :
  sum_of_squares (zip_with (vlift2 Rminus) v0 (add_scalar v0 1)) =
  3 * INR (length v0).
Proof.
  unfold sum_of_squares, Rsum, add_scalar.
  induction v0 as [|[[x y] z] v0 IH].
  - simpl. lra.
  - cbn [length]. rewrite S_INR. csimpl in *. rewrite IH. lra.
Qed.

Lemma cond_init_true (v0 : verts R) h :
  v0 ≠ [] → cond (E:=E) (init v0 h) = Normal true.
Proof.
  intros Hne. apply cond_R. simpl.
  exists (zip_with (vlift2 Rminus) v0 (add_scalar v0 1)). split; [|split].
  - apply broadcast2_same_length. unfold add_scalar. by rewrite length_fmap.
  - apply sqrt_above_tol. rewrite sentinel_sum_of_squares.
    destruct v0 as [|p v0]; [done|]. cbn [length]. rewrite S_INR.
    pose proof (pos_INR (length v0)). lra.
  - lia.
Qed.

(** Identical meshes *)

Lemma sum_rows_replicate (c : verts R) n k :
  fold_left (zip_with (vlift2 Rplus)) (replicate n c)
    ((λ p : vertex R, (k * p.1.1, k * p.1.2, k * p.2)) <$> c) =
  (λ p : vertex R, ((k + INR n) * p.1.1, (k + INR n) * p.1.2, (k + INR n) * p.2)) <$> c.
Proof.
  revert k. induction n as [|n IH]; intros k.
  - simpl. apply list_fmap_ext. intros _ [[x y] z] _. simpl.
    f_equal; [f_equal|]; lra.
  - cbn [replicate fold_left].
    assert (zip_with (vlift2 Rplus)
              ((λ p : vertex R, (k * p.1.1, k * p.1.2, k * p.2)) <$> c) c =
            (λ p : vertex R, ((k + 1) * p.1.1, (k + 1) * p.1.2, (k + 1) * p.2)) <$> c)
      as ->.
    { clear IH. induction c as [|[[x y] z] c IHc]; csimpl; [done|].
      rewrite IHc. f_equal. f_equal; [f_equal|]; lra. }
    rewrite IH, S_INR. apply list_fmap_ext. intros _ [[x y] z] _. simpl.
    f_equal; [f_equal|]; lra.
Qed.

(** The mean of copies of one array is that array. *)
Lemma mean_axis0_replicate (c : verts R) n :
  mean_axis0 c (replicate n c) = c.
Proof.
  unfold mean_axis0. rewrite length_replicate.
  change (@fadd R R_scalar) with Rplus.
  change (@fcount R R_scalar (S n)) with (INR (S n)). rewrite S_INR.
  change (@fdiv R R_scalar) with Rdiv.
  assert (c = (λ p : vertex R, (1 * p.1.1, 1 * p.1.2, 1 * p.2)) <$> c) as Hc.
  { rewrite <- (list_fmap_id c) at 1. apply list_fmap_ext.
    intros _ [[x y] z] _. simpl. f_equal; [f_equal|]; lra. }
  pose proof (sum_rows_replicate c n 1) as Hs. rewrite <- Hc in Hs.
  rewrite Hs, <- list_fmap_compose.
  rewrite <- (list_fmap_id c) at 2. apply list_fmap_ext.
  intros _ [[x y] z] _. simpl.
  pose proof (pos_INR n).
  f_equal; [f_equal|]; field; lra.
Qed.

Lemma self_distance (c : verts R) :
  sum_of_squares (zip_with (vlift2 Rminus) c c) = 0.
Proof.
  unfold sum_of_squares, Rsum.
  induction c as [|[[x y] z] c IH]; csimpl in *; [done|]. rewrite IH. lra.
Qed.

Lemma cond_converged (c : verts R) n h :
  cond (E:=E) (mkState c c n h) = Normal false.
Proof.
  unfold cond. simpl ref_v. simpl old_ref_v.
  rewrite broadcast2_same_length by done. f_equal.
  apply andb_false_iff. left. apply not_true_is_false. rewrite fgt_R.
  unfold norm. rewrite sqnorm_ravel.
  change (@fsub R R_scalar) with Rminus. rewrite self_distance.
  change (@fsqrt R R_scalar) with sqrt. rewrite sqrt_0.
  simpl. lra.
Qed.

End Exact.

(** * Examples *)

Section Examples.
Local Open Scope positive_scope.

(** One iteration on two points, aligned by the identity: the previous
    reference becomes the first point, the reference their mean. *)
Example iteration_on_two_points :
  body identity_align 1 [2] (init [(0, 0, 0)%float] store_two_meshes) =
    Normal (mkState [(1, 2, 3)%float] [(0, 0, 0)%float] 1 store_two_meshes).
Proof. vm_compute. reflexivity. Qed.

(** The test of the loop in binary64: a distance of 2e-11 goes on, a
    distance of 5e-12 stops, and so does any distance once the counter is at
    1000.  (The two literals are the binary64 numbers nearest to 2e-11 and
    5e-12.) *)
Example loop_test_in_binary64 :
  cond (E:=Empty_set) (mkState [(0x1.5fd7fe1796495p-36, 0, 0)%float] [(0, 0, 0)%float] 7 ∅)
    = Normal true ∧
  cond (E:=Empty_set) (mkState [(0x1.5fd7fe1796495p-38, 0, 0)%float] [(0, 0, 0)%float] 7 ∅)
    = Normal false ∧
  cond (E:=Empty_set) (mkState [(1, 0, 0)%float] [(0, 0, 0)%float] 1000 ∅)
    = Normal false.
Proof. repeat split; vm_compute; reflexivity. Qed.

(** Outside the interface of [align]: [growing_align] does not return the
    transformed source vertices but, at its 1000th call, one vertex more.
    On a single mesh of two vertices the body is executed 1000 times; the
    last execution leaves a reference of three vertices beside a previous
    reference of two, and the test of the loop, which subtracts them before
    it looks at the counter, raises [ValueError]. *)
Lemma cap_reached_test_raises :
  body_entries growing_align 1 [] 1001
    (init [(0, 0, 0); (0, 0, 0)]%float store_segment) = 1000%nat ∧
  generalized_procrustes growing_align [1] store_segment =
    Some (Raised line14 ValueError
            {[ 1 := [(999, 999, 999); (999, 999, 999); (0, 0, 0)]%float ]}).
Proof. split; vm_compute; reflexivity. Qed.

(** The cap with an [align] that keeps the vertex count: [drifting_align]
    moves the mesh at every call, the distance stays above the tolerance,
    and after 1000 executions of the body the procedure returns. *)
Example cap_reached_returns :
  body_entries drifting_align 1 [] 1001
    (init [(0, 0, 0); (0, 0, 0)]%float store_segment) = 1000%nat ∧
  generalized_procrustes drifting_align [1] store_segment =
    Some (Normal (None, {[ 1 := [(1000, 1000, 1000); (1000, 1000, 1000)]%float ]})).
Proof. split; vm_compute; reflexivity. Qed.


(** C5, counterexample, in binary64.  One mesh without vertices, aligned
    by the identity: every mesh equals the same shape and [align] of that
    shape onto itself is that shape, yet no iteration is executed.  And
    three references to [rounded_point], aligned by the identity: the mean
    of the three copies is one unit in the last place (2^-32) away from the
    point, which is more than 1e-11, and two iterations are executed. *)
Lemma identical_meshes_zero_or_two_iterations :
  ((∀ s, s ∈ [1] → store_empty_mesh !! s = Some []) ∧
   identity_align ([] : verts float) [] = inr [] ∧
   body_entries identity_align 1 [] 1001 (init [] store_empty_mesh) = 0%nat ∧
   loop_runs identity_align 1 [] (init [] store_empty_mesh) 0
     (Normal (init [] store_empty_mesh)) ∧
   generalized_procrustes identity_align [1] store_empty_mesh =
     Some (Normal (None, store_empty_mesh))) ∧
  ((∀ s, s ∈ [1; 1; 1] → store_rounded_point !! s = Some rounded_point) ∧
   identity_align rounded_point rounded_point = inr rounded_point ∧
   body_entries identity_align 1 [1; 1] 1001
     (init rounded_point store_rounded_point) = 2%nat ∧
   (∃ st, loop_runs identity_align 1 [1; 1]
            (init rounded_point store_rounded_point) 2 (Normal st)) ∧
   generalized_procrustes identity_align [1; 1; 1] store_rounded_point =
     Some (Normal (None, store_rounded_point))).
Proof.
  split.
  - split; [by intros s ->%list_elem_of_singleton|].
    split; [reflexivity|]. split; [vm_compute; reflexivity|].
    split; [|vm_compute; reflexivity].
    apply runs_exit. vm_compute. reflexivity.
  - split.
    { intros s Hs. assert (s = 1) as ->; [|reflexivity].
      repeat (apply elem_of_cons in Hs as [->|Hs]; [done|]).
      by apply elem_of_nil in Hs. }
    split; [reflexivity|]. split; [vm_compute; reflexivity|].
    split; [|vm_compute; reflexivity].
    destruct (while_loop identity_align 1 [1; 1] 1001
                (init rounded_point store_rounded_point)) as [[st|l e h]|]
      eqn:Hw; [|vm_compute in Hw; discriminate..].
    exists st.
    replace 2%nat with (body_entries identity_align 1 [1; 1] 1001
                          (init rounded_point store_rounded_point))
      by (vm_compute; reflexivity).
    by apply body_entries_runs.
Qed.

(** C6, counterexample.  What an empty collection raises is the built-in
    [IndexError] of the indexing [surf[0]]; the procedure has no check of
    its own. *)
Lemma empty_collection_error_is_builtin :
  ∃ e, generalized_procrustes (F:=R) identity_align [] ∅ =
         Some (Raised line9 e ∅) ∧
       builtin_exception e.
Proof. exists IndexError. split; [reflexivity|exact I]. Qed.

(** C7, counterexample, in binary64.  A mesh without vertices followed
    by a quad: the vertex counts differ, the loop is not entered and the
    procedure returns without any error.  The same with a first mesh of one
    vertex, [huge_point], whose coordinates absorb the 1 the sentinel
    adds. *)
Lemma mismatched_counts_without_error :
  (store_empty_and_quad !! 1 = Some [] ∧
   store_empty_and_quad !! 2 = Some quad64 ∧
   length ([] : verts float) ≠ length quad64 ∧
   generalized_procrustes identity_align [1; 2] store_empty_and_quad =
     Some (Normal (None, store_empty_and_quad))) ∧
  (store_huge_and_quad !! 1 = Some huge_point ∧
   store_huge_and_quad !! 2 = Some quad64 ∧
   length huge_point ≠ length quad64 ∧
   generalized_procrustes identity_align [1; 2] store_huge_and_quad =
     Some (Normal (None, store_huge_and_quad))).
Proof.
  split; (split; [reflexivity|]; split; [reflexivity|];
          split; [discriminate|vm_compute; reflexivity]).
Qed.

(** C8, witness.  Two points; [picky_align] returns for the first and
    raises for the second, in the first iteration. *)
Lemma align_failure_propagates_witness :
  cond (E:=unit) (init [(1, 0, 0)%float] store_two_points) = Normal true ∧
  picky_align [(-1, 0, 0)%float] [(1, 0, 0)%float] = inl tt ∧
  generalized_procrustes picky_align [1; 2] store_two_points =
    Some (Raised line19 (AlignError tt) store_two_points).
Proof.
  split; [vm_compute; reflexivity|]. split; [reflexivity|].
  apply (align_failure_propagates picky_align 1 [2] store_two_points
           [(1, 0, 0)%float] 0 (init [(1, 0, 0)%float] store_two_points)
           [1] 2 [] store_two_points [(-1, 0, 0)%float] tt).
  - reflexivity.
  - constructor.
  - vm_compute; reflexivity.
  - reflexivity.
  - eapply (aligned_cons picky_align _ 1 [] store_two_points
              [(1, 0, 0)%float] [(1, 0, 0)%float]); [reflexivity..|].
    replace (<[1:=[(1, 0, 0)%float]]> store_two_points) with store_two_points
      by (vm_compute; reflexivity).
    constructor.
  - reflexivity.
  - reflexivity.
Defined.

(** C10, witness: a mesh without vertices followed by a point, in
    binary64. *)
Lemma empty_first_mesh_skips_loop_witness :
  store_no_vertex !! 1 = Some [] ∧
  body_entries drifting_align 1 [2] 1001 (init [] store_no_vertex) = 0%nat ∧
  generalized_procrustes drifting_align [1; 2] store_no_vertex =
    Some (Normal (None, store_no_vertex)).
Proof.
  split; [reflexivity|].
  apply (empty_first_mesh_skips_loop drifting_align 1 [2] store_no_vertex);
    reflexivity.
Defined.

(** What exact arithmetic hides: in binary64 the mean of three copies of
    one array need not be that array.  Three references to [rounded_point],
    aligned by the identity: the mean of the first iteration is one unit in
    the last place (2^-32) away from the mesh, which is more than 1e-11, and
    a second iteration is executed before the loop ends. *)
Example rounding_takes_a_second_iteration :
  mean_axis0 rounded_point [rounded_point; rounded_point] ≠ rounded_point ∧
  body_entries identity_align 1 [1; 1] 1001
    (init rounded_point store_rounded_point) = 2%nat ∧
  generalized_procrustes identity_align [1; 1; 1] store_rounded_point =
    Some (Normal (None, store_rounded_point)).
Proof. split; [|split]; vm_compute; [discriminate|reflexivity..]. Qed.

(** And the sentinel: in binary64 adding 1 to 1e16 gives 1e16 back, so the
    sentinel of [huge_point] is [huge_point] and the loop is skipped although
    the mesh has a vertex. *)
Example absorbed_sentinel_skips_loop :
  add_scalar huge_point 1%float = huge_point ∧
  body_entries drifting_align 1 [] 1001 (init huge_point store_huge_point) = 0%nat ∧
  generalized_procrustes drifting_align [1] store_huge_point =
    Some (Normal (None, store_huge_point)).
Proof. repeat split; vm_compute; reflexivity. Qed.
End Examples.


(** * Meshes in correspondence *)

Section Correspondence.
Context {F : Type} `{Scalar F} {E : Type}.
Variable align : verts F → verts F → E + verts F.

Lemma vertex_count_kept_by_assignments surf l (o : option nat) :
  keeps_vertex_count align →
  kept_by_assignments align surf (λ h' : gmap loc (verts F), length <$> h' !! l = o).
Proof.
  intros Hk h' s v ref v' Hh' _ Hv Hal.
  destruct (decide (s = l)) as [->|Hne].
  - rewrite lookup_insert_eq, <- Hh', Hv. simpl. by rewrite (Hk _ _ _ Hal).
  - by rewrite lookup_insert_ne.
Qed.

Lemma align_all_vertex_count ref ss (h h' : gmap loc (verts F)) l :
  keeps_vertex_count align →
  align_all align ref ss h = Normal h' →
  length <$> h' !! l = length <$> h !! l.
Proof.
  intros Hk Ha.
  pose proof (align_all_keeps align ss
                (λ h' : gmap loc (verts F), length <$> h' !! l = length <$> h !! l)
                ref ss h (vertex_count_kept_by_assignments ss l _ Hk)) as HP.
  rewrite Ha in HP. by apply HP.
Qed.

Lemma align_all_succeeds ref ss (h : gmap loc (verts F)) :
  always_returns align → (∀ s, s ∈ ss → is_Some (h !! s)) →
  ∃ h', align_all align ref ss h = Normal h'.
Proof.
  intros Hret. revert h. induction ss as [|s ss IH]; intros h Hv; simpl; [eauto|].
  destruct (Hv s) as [v ->]; [by left|].
  destruct (Hret v ref) as [v' ->].
  apply IH. intros s' Hs'. rewrite lookup_insert_is_Some.
  destruct (decide (s = s')); [by left|]. right. split; [done|].
  apply Hv. by right.
Qed.

(** The procedure never changes the number of vertices of a mesh, or of any
    other object, when [align] does not: however the call ends, every
    object of the final store has the vertex count it had. *)
Theorem vertex_counts_are_kept surf h :
  keeps_vertex_count align →
  ∃ c, generalized_procrustes align surf h = Some c ∧
       ∀ l, length <$> store_of c !! l = length <$> h !! l.
Proof.
  intros Hk.
  destruct (generalized_procrustes_total align 1001 surf h) as [c Hc]; [lia|].
  exists c. split; [done|]. intros l.
  apply (generalized_procrustes_keeps align
           (λ h' : gmap loc (verts F), length <$> h' !! l = length <$> h !! l)
           1001 surf h c); [|done..].
  by apply vertex_count_kept_by_assignments.
Qed.

(** The state of the loop when every mesh of [s0 :: rest] and both
    references have [n] vertices. *)
Lemma body_in_correspondence s0 rest n st :
  always_returns align → keeps_vertex_count align →
  (∀ s, s ∈ s0 :: rest → length <$> heap st !! s = Some n) →
  length (ref_v st) = n →
  ∃ st', body align s0 rest st = Normal st' ∧
         (∀ s, s ∈ s0 :: rest → length <$> heap st' !! s = Some n) ∧
         length (ref_v st') = n ∧ length (old_ref_v st') = n.
Proof.
  intros Hret Hk Hall Hr.
  destruct (align_all_succeeds (ref_v st) (s0 :: rest) (heap st) Hret) as [h' Ha].
  { intros s Hs. specialize (Hall s Hs). by destruct (heap st !! s). }
  assert (∀ s, s ∈ s0 :: rest → length <$> h' !! s = Some n) as Hall'.
  { intros s Hs. rewrite (align_all_vertex_count _ _ _ _ s Hk Ha). by apply Hall. }
  destruct (h' !! s0) as [a|] eqn:Ha0;
    [|specialize (Hall' s0 ltac:(by left)); by rewrite Ha0 in Hall'].
  assert (length a = n) as Hla.
  { specialize (Hall' s0 ltac:(by left)). rewrite Ha0 in Hall'. by injection Hall'. }
  assert (∃ bs, mapM (λ s, h' !! s) rest = Some bs ∧
                Forall (λ b : verts F, length b = length a) bs) as (bs & Hbs & Hsh).
  { assert (∀ s, s ∈ rest → length <$> h' !! s = Some n) as Hrest.
    { intros s Hs. apply Hall'. by right. }
    clear -Hrest Hla. induction rest as [|s rest IH].
    - exists []. by split.
    - destruct IH as (bs & Hbs & Hsh); [intros; apply Hrest; by right|].
      pose proof (Hrest s ltac:(by left)) as Hs.
      destruct (h' !! s) as [b|] eqn:Hb; [|done]. injection Hs as Hs.
      exists (b :: bs). split.
      + apply mapM_Some_2. constructor; [done|]. by apply mapM_Some_1.
      + constructor; [congruence|done]. }
  exists (mkState (mean_axis0 a bs) (ref_v st) (n_steps st + 1) h').
  split.
  - unfold body. rewrite Ha. unfold new_reference. rewrite Ha0, Hbs.
    by rewrite (proj2 (same_shape_Forall a bs) Hsh).
  - simpl. split; [done|]. split; [|done].
    unfold mean_axis0. by rewrite length_fmap, length_sum_rows.
Qed.

Lemma while_loop_in_correspondence s0 rest n fuel st c :
  always_returns align → keeps_vertex_count align →
  (∀ s, s ∈ s0 :: rest → length <$> heap st !! s = Some n) →
  length (ref_v st) = n → length (old_ref_v st) = n →
  while_loop align s0 rest fuel st = Some c →
  ∃ st', c = Normal st' ∧
         ∀ s, s ∈ s0 :: rest → length <$> heap st' !! s = Some n.
Proof.
  intros Hret Hk. revert st.
  induction fuel as [|fuel IH]; intros st Hall Hr Ho; simpl; [discriminate|].
  unfold cond. rewrite broadcast2_same_length by congruence.
  destruct (fgt _ _ && _).
  - destruct (body_in_correspondence s0 rest n st Hret Hk Hall Hr)
      as (st' & -> & Hall' & Hr' & Ho').
    by apply IH.
  - intros [= <-]. eauto.
Qed.

(** The documented precondition is enough.  When every mesh of a non-empty
    collection holds a vertex array, all of them with the same number [n] of
    vertices, and [align] returns and keeps the vertex count, the procedure
    raises nothing: it returns, and every mesh still has [n] vertices. *)
Theorem meshes_in_correspondence_return surf h n :
  always_returns align →
  keeps_vertex_count align →
  surf ≠ [] →
  (∀ s, s ∈ surf → ∃ a, h !! s = Some a ∧ length a = n) →
  ∃ h', generalized_procrustes align surf h = Some (Normal (None, h')) ∧
        ∀ s, s ∈ surf → ∃ a, h' !! s = Some a ∧ length a = n.
Proof.
  intros Hret Hk Hne Hall. destruct surf as [|s0 rest]; [done|].
  destruct (Hall s0) as (v0 & Hs0 & Hl0); [by left|].
  assert (∀ s, s ∈ s0 :: rest → length <$> h !! s = Some n) as Hall'.
  { intros s Hs. destruct (Hall s Hs) as (a & -> & <-). done. }
  destruct (while_loop_fuel align s0 rest 1001 (init v0 h)) as [c Hc];
    [simpl; lia|].
  destruct (while_loop_in_correspondence s0 rest n 1001 (init v0 h) c Hret Hk)
    as (st' & -> & Hst'); try done.
  { simpl. unfold add_scalar. by rewrite length_fmap. }
  exists (heap st'). split.
  - unfold generalized_procrustes, generalized_procrustes_fuel.
    by rewrite Hs0, Hc.
  - intros s Hs. specialize (Hst' s Hs).
    destruct (heap st' !! s) as [a|]; [|done]. injection Hst' as <-. eauto.
Qed.
End Correspondence.


(** * How the procedure ends *)

Section Outcomes.
Context {F : Type} `{Scalar F} {E : Type}.
Variable align : verts F → verts F → E + verts F.
Variables (s0 : loc) (rest : list loc).

(** A loop that ends normally ends on a test that is false, after as many
    counted steps as executions of the body. *)
Lemma loop_runs_Normal st k st' :
  loop_runs align s0 rest st k (Normal st') →
  cond (E:=E) st' = Normal false ∧ n_steps st' = n_steps st + k.
Proof.
  intros Hr. remember (Normal st') as c eqn:Hc.
  induction Hr as [st l e h Ht|st Ht|st l e h Ht Hb|st st1 k c Ht Hb _ IH].
  - discriminate.
  - injection Hc as ->. split; [done|lia].
  - discriminate.
  - destruct (IH Hc) as [Hf Hn]. split; [done|].
    apply body_n_steps in Hb. lia.
Qed.

(** The last execution of the body of a loop that ends normally. *)
Lemma loop_runs_last st k st' :
  loop_runs align s0 rest st (S k) (Normal st') →
  ∃ st1, iterates align s0 rest k st st1 ∧
         cond (E:=E) st1 = Normal true ∧
         body align s0 rest st1 = Normal st'.
Proof.
  revert st. induction k as [|k IH]; intros st Hr.
  - inversion Hr as [| | |st_ st1 k_ c_ Ht Hb Hr1]; subst.
    inversion Hr1; subst. exists st. split; [constructor|done].
  - inversion Hr as [| | |st_ st1 k_ c_ Ht Hb Hr1]; subst.
    destruct (IH st1 Hr1) as (st2 & Hit & Ht2 & Hb2).
    exists st2. split; [by eapply iterates_S|done].
Qed.

(** A return before the cap certifies convergence.  When the procedure
    returns after fewer than 1000 executions of the body, the last test of
    the loop has computed the distance between the final reference and the
    previous one and found that it does not exceed the tolerance.  (A return
    after 1000 executions says nothing about the distance.) *)
Theorem early_return_means_converged v0 h k st :
  loop_runs align s0 rest (init v0 h) k (Normal st) →
  k < 1000 →
  ∃ d, broadcast2 fsub (ref_v st) (old_ref_v st) = Some d ∧
       fgt (norm d) tol = false.
Proof.
  intros Hr Hk. apply loop_runs_Normal in Hr as [Hc Hn]. simpl in Hn.
  unfold cond in Hc. destruct (broadcast2 _ _ _) as [d|]; [|discriminate].
  exists d. split; [done|]. injection Hc as Hc.
  apply andb_false_iff in Hc as [Hc|Hc]; [done|].
  apply Nat.ltb_ge in Hc. lia.
Qed.

(** What the meshes hold at a normal return after at least one iteration:
    the result of the alignment pass of the last iteration, which aligned
    them, in collection order, onto the previous reference, not onto the
    final one.  The final reference, which the procedure drops, is the
    element-wise mean of what the meshes hold, and has their vertex
    count. *)
Theorem meshes_end_aligned_to_previous_reference v0 h k st :
  loop_runs align s0 rest (init v0 h) (S k) (Normal st) →
  ∃ h_before arrs,
    aligned_in_order align (old_ref_v st) (s0 :: rest) h_before (heap st) ∧
    mapM (λ s, heap st !! s) (s0 :: rest) = Some arrs ∧
    is_mean_of (ref_v st) arrs.
Proof.
  intros Hr. apply loop_runs_last in Hr as (st1 & _ & _ & Hb).
  apply body_Normal_inv in Hb as (Ho & _ & Ha & a & bs & Hs0 & Hbs & Hs & Hm).
  exists (heap st1), (a :: bs). split; [|split].
  - rewrite Ho. by apply align_all_in_order.
  - simpl. rewrite Hs0. simpl. by rewrite Hbs.
  - rewrite Hm. by apply mean_axis0_is_mean.
Qed.
End Outcomes.


(** * The failures the procedure can end with *)

Section Failures.
Context {F : Type} `{Scalar F} {E : Type}.
Variable align : verts F → verts F → E + verts F.

Lemma align_all_Raised ref ss (h : gmap loc (verts F)) l e h' :
  align_all align ref ss h = Raised l e h' →
  l = line19 ∧
  ((e = AttributeError ∧ ∃ s, s ∈ ss ∧ h' !! s = None) ∨
   (∃ e' v, e = AlignError e' ∧ align v ref = inl e')).
Proof.
  revert h. induction ss as [|s ss IH]; intros h; simpl; [discriminate|].
  destruct (h !! s) as [v|] eqn:Hs.
  - destruct (align v ref) as [e'|v'] eqn:Ha.
    + intros [= <- <- <-]. split; [done|]. right. eauto.
    + intros Hr. destruct (IH _ Hr) as [-> [(-> & t & Ht & Hn)|Hal]].
      * split; [done|]. left. split; [done|]. exists t. split; [by right|done].
      * split; [done|]. by right.
  - intros [= <- <- <-]. split; [done|]. left. split; [done|].
    exists s. split; [by left|done].
Qed.

(** After a completed alignment pass every mesh of the collection holds an
    array. *)
Lemma align_all_present ref ss (h h' : gmap loc (verts F)) :
  align_all align ref ss h = Normal h' → ∀ s, s ∈ ss → is_Some (h' !! s).
Proof.
  revert h. induction ss as [|t ss IH]; intros h Ha s Hs.
  - by apply elem_of_nil in Hs.
  - simpl in Ha. destruct (h !! t) as [v|] eqn:Ht; [|discriminate].
    destruct (align v ref) as [e'|v'] eqn:Hal; [discriminate|].
    apply elem_of_cons in Hs as [->|Hs]; [|by eapply IH].
    pose proof (align_all_keeps align ss
                  (λ h1 : gmap loc (verts F), is_Some (h1 !! t)) ref ss
                  (<[t:=v']> h)) as HP.
    rewrite Ha in HP. apply HP; [|done|].
    + intros h1 s1 v1 ref1 v1' Hh1 _ _ _. rewrite lookup_insert_is_Some.
      destruct (decide (s1 = t)); [by left|by right].
    + rewrite lookup_insert_eq. eauto.
Qed.

Lemma body_Raised s0 rest st l e h' :
  body align s0 rest st = Raised l e h' →
  (l = line19 ∧ e = AttributeError ∧ ∃ s, s ∈ s0 :: rest ∧ h' !! s = None) ∨
  (l = line19 ∧ ∃ e' v r, e = AlignError e' ∧ align v r = inl e') ∨
  (l = line22 ∧ e = ValueError).
Proof.
  unfold body. destruct (align_all _ _ _ _) as [h1|l1 e1 h1] eqn:Ha.
  - pose proof (align_all_present _ _ _ _ Ha) as Hp.
    unfold new_reference.
    destruct (Hp s0) as [a ->]; [by left|].
    assert (is_Some (mapM (λ s, h1 !! s) rest)) as [bs ->].
    { apply mapM_is_Some, Forall_forall. intros s Hs. apply Hp. by right. }
    destruct (same_shape a bs); [discriminate|].
    intros [= <- <- <-]. by right; right.
  - intros [= <- <- <-].
    apply align_all_Raised in Ha as [-> [[-> Hs]|(e' & v & -> & Hal)]].
    + by left.
    + right; left. split; [done|]. eauto.
Qed.

Lemma while_loop_Raised s0 rest fuel st l e h' :
  while_loop align s0 rest fuel st = Some (Raised l e h') →
  (l = line14 ∧ e = ValueError) ∨
  (l = line19 ∧ e = AttributeError ∧ ∃ s, s ∈ s0 :: rest ∧ h' !! s = None) ∨
  (l = line19 ∧ ∃ e' v r, e = AlignError e' ∧ align v r = inl e') ∨
  (l = line22 ∧ e = ValueError).
Proof.
  revert st. induction fuel as [|fuel IH]; intros st; simpl; [discriminate|].
  unfold cond. destruct (broadcast2 _ _ _) as [d|].
  - destruct (fgt _ _ && _); [|discriminate].
    destruct (body align s0 rest st) as [st1|l1 e1 h1] eqn:Hb; [by apply IH|].
    intros [= <- <- <-]. right. by apply body_Raised in Hb.
  - intros [= <- <- <-]. by left.
Qed.

(** The failures the procedure can end with, and no others: [IndexError]
    from line 9, for the empty collection; [AttributeError] from line 9 or
    from line 19, for a mesh that held no vertex array when the procedure
    was called; [ValueError] from the subtraction of line 14 or from the
    stacking of line 22; and, from line 19, an exception that [align] did
    raise.  The two failures of line 9 leave the store as it was. *)
Theorem possible_failures surf h l e h' :
  generalized_procrustes align surf h = Some (Raised l e h') →
  (l = line9 ∧ e = IndexError ∧ surf = [] ∧ h' = h) ∨
  (l = line9 ∧ e = AttributeError ∧ h' = h ∧
   ∃ s0 rest, surf = s0 :: rest ∧ h !! s0 = None) ∨
  (l = line14 ∧ e = ValueError) ∨
  (l = line19 ∧ e = AttributeError ∧ ∃ s, s ∈ surf ∧ h !! s = None) ∨
  (l = line19 ∧ ∃ e' v r, e = AlignError e' ∧ align v r = inl e') ∨
  (l = line22 ∧ e = ValueError).
Proof.
  intros Hg.
  pose proof (generalized_procrustes_keeps align
                (λ h1 : gmap loc (verts F), dom h1 = dom h) 1001 surf h _
                ltac:(intros h1 s v ref v' Hh1 _ Hv _;
                      apply elem_of_dom_2 in Hv; rewrite dom_insert_L, <- Hh1;
                      apply subseteq_union_1_L; by apply singleton_subseteq_l)
                eq_refl Hg) as Hdom.
  simpl in Hdom.
  unfold generalized_procrustes, generalized_procrustes_fuel in Hg.
  destruct surf as [|s0 rest].
  { injection Hg as <- <- <-. by left. }
  destruct (h !! s0) as [v0|] eqn:Hs0.
  - destruct (while_loop _ _ _ _ _) as [[st|l1 e1 h1]|] eqn:Hw; try discriminate.
    injection Hg as -> -> ->.
    apply while_loop_Raised in Hw
      as [?|[(-> & -> & s & Hs & Hn)|[?|?]]]; [by right; right; left| |by eauto 10..].
    right; right; right; left. split; [done|]. split; [done|].
    exists s. split; [done|].
    apply not_elem_of_dom. rewrite <- Hdom. by apply not_elem_of_dom.
  - injection Hg as <- <- <-. right; left. eauto 10.
Qed.

(** A mesh without vertex array after the first one is found only when the
    first iteration reaches it: the meshes before it in the collection, the
    first one among them, have been given their aligned arrays by then, and
    the procedure ends with [AttributeError] and the store in that state. *)
Theorem missing_vertex_array_found_late s0 rest h v0 pre s post h1 :
  h !! s0 = Some v0 →
  cond (E:=E) (init v0 h) = Normal true →
  s0 :: rest = pre ++ s :: post →
  aligned_in_order align v0 pre h h1 →
  h !! s = None →
  s0 ∈ pre ∧
  generalized_procrustes align (s0 :: rest) h =
    Some (Raised line19 AttributeError h1).
Proof.
  intros Hs0 Hc Hsurf Hpre Hs.
  assert (s0 ∈ pre) as Hin.
  { destruct pre as [|t pre]; simpl in Hsurf.
    - injection Hsurf as -> _. congruence.
    - injection Hsurf as -> _. by left. }
  split; [done|].
  assert (h1 !! s = None) as Hs1.
  { apply align_all_in_order in Hpre.
    pose proof (align_all_keeps align pre
                  (λ h' : gmap loc (verts F), h' !! s = None) v0 pre h) as HP.
    rewrite Hpre in HP. apply HP; [|done..].
    intros h' t v ref v' Hh' _ Hv _. rewrite lookup_insert_ne; [done|].
    intros ->. congruence. }
  assert (body align s0 rest (init v0 h) = Raised line19 AttributeError h1) as Hb.
  { unfold body. simpl ref_v. simpl heap.
    rewrite Hsurf, (align_all_app align _ pre _ _ h1 Hpre). simpl.
    by rewrite Hs1. }
  pose proof (runs_body_raises align s0 rest _ _ _ _ Hc Hb) as Hr.
  unfold generalized_procrustes.
  rewrite (generalized_procrustes_of_run align s0 rest h v0 _ _ 1001 Hs0 Hr);
    [done|lia].
Qed.
End Failures.


(** * Meshes are aligned independently of each other *)

Section Independence.
Context {F : Type} `{Scalar F} {E : Type}.
Variable align : verts F → verts F → E + verts F.

Lemma align_all_frame ref ss (h h' : gmap loc (verts F)) l :
  align_all align ref ss h = Normal h' → l ∉ ss → h' !! l = h !! l.
Proof.
  intros Ha Hl.
  pose proof (align_all_keeps align ss
                (λ h1 : gmap loc (verts F), h1 !! l = h !! l) ref ss h) as HP.
  rewrite Ha in HP. apply HP; [|done..].
  intros h1 s v ref1 v' Hh1 Hs _ _. rewrite lookup_insert_ne; [done|].
  by intros ->.
Qed.

Lemma align_all_NoDup ref ss (h h' : gmap loc (verts F)) :
  NoDup ss →
  align_all align ref ss h = Normal h' ↔
  (∀ s, s ∈ ss → ∃ v v', h !! s = Some v ∧ align v ref = inr v' ∧
                         h' !! s = Some v') ∧
  (∀ l, l ∉ ss → h' !! l = h !! l).
Proof.
  intros Hnd. revert h. induction Hnd as [|s ss Hs Hnd IH]; intros h.
  - simpl. split.
    + intros [= <-]. split; [|done]. intros s Hs. by apply elem_of_nil in Hs.
    + intros [_ Hf]. f_equal. apply map_eq. intros l. symmetry. apply Hf.
      apply not_elem_of_nil.
  - simpl. split.
    + destruct (h !! s) as [v|] eqn:Hv; [|discriminate].
      destruct (align v ref) as [e|v'] eqn:Ha; [discriminate|].
      intros Hr. pose proof (proj1 (IH _) Hr) as [Hin Hout]. split.
      * intros t [->|Ht]%elem_of_cons.
        -- exists v, v'. split; [done|]. split; [done|].
           rewrite (Hout s Hs). apply lookup_insert_eq.
        -- destruct (Hin t Ht) as (w & w' & Hw & Haw & Hw').
           exists w, w'. split; [|done].
           rewrite lookup_insert_ne in Hw; [done|]. by intros ->.
      * intros l Hl. apply not_elem_of_cons in Hl as [Hne Hl].
        rewrite (Hout l Hl). by apply lookup_insert_ne.
    + intros [Hin Hout].
      destruct (Hin s) as (v & v' & -> & -> & Hv'); [by left|].
      apply IH. split.
      * intros t Ht. destruct (Hin t) as (w & w' & Hw & Haw & Hw'); [by right|].
        exists w, w'. split; [|done].
        rewrite lookup_insert_ne; [done|]. by intros ->.
      * intros l Hl. destruct (decide (l = s)) as [->|Hne].
        -- by rewrite lookup_insert_eq.
        -- rewrite lookup_insert_ne by done. apply Hout.
           by apply not_elem_of_cons.
Qed.

(** In a collection that lists no mesh twice, the alignment pass of one
    iteration treats the meshes independently of each other.  It completes
    with the store [h'] exactly when every mesh holds an array for which
    [align] returns, [h'] gives each mesh the result of aligning the array
    that mesh held before the pass, and every other object holds what it
    held.  So the order of the collection does not matter: the pass over any
    rearrangement of it completes with the same store. *)
Theorem alignment_pass_without_repeats ref ss (h h' : gmap loc (verts F)) :
  NoDup ss →
  (align_all align ref ss h = Normal h' ↔
   (∀ s, s ∈ ss → ∃ v v', h !! s = Some v ∧ align v ref = inr v' ∧
                          h' !! s = Some v') ∧
   (∀ l, l ∉ ss → h' !! l = h !! l)) ∧
  (∀ ss', ss ≡ₚ ss' →
          align_all align ref ss h = Normal h' →
          align_all align ref ss' h = Normal h').
Proof.
  intros Hnd. split; [by apply align_all_NoDup|].
  intros ss' Hp Ha.
  apply align_all_NoDup in Ha as [Hin Hout]; [|done].
  apply align_all_NoDup; [by rewrite <- Hp|]. split.
  - intros s Hs. apply Hin. by rewrite Hp.
  - intros l Hl. apply Hout. by rewrite Hp.
Qed.
End Independence.


(** * A collection of one mesh, in exact arithmetic *)

Section SingleMesh.
Context {E : Type}.
Variable align : verts R → verts R → E + verts R.
Local Open Scope R_scope.

Lemma mean_axis0_single (a : verts R) : mean_axis0 a [] = a.
Proof.
  unfold mean_axis0. simpl.
  rewrite <- (list_fmap_id a) at 2. apply list_fmap_ext.
  intros _ [[x y] z] _. simpl. f_equal; [f_equal|]; lra.
Qed.

Lemma body_single s0 st st' :
  heap st !! s0 = Some (ref_v st) →
  body align s0 [] st = Normal st' →
  heap st' !! s0 = Some (ref_v st') ∧
  old_ref_v st' = ref_v st ∧
  align (ref_v st) (ref_v st) = inr (ref_v st').
Proof.
  intros Hs0 Hb.
  apply body_Normal_inv in Hb as (Ho & _ & Ha & a & bs & Ha0 & Hbs & _ & Hm).
  simpl in Hbs. injection Hbs as <-. rewrite mean_axis0_single in Hm. subst a.
  split; [done|]. split; [done|].
  simpl in Ha. rewrite Hs0 in Ha.
  destruct (align (ref_v st) (ref_v st)) as [e|v'] eqn:Hal; [discriminate|].
  injection Ha as Ha. rewrite <- Ha, lookup_insert_eq in Ha0. congruence.
Qed.

Lemma iterates_single s0 k st st' :
  heap st !! s0 = Some (ref_v st) →
  iterates align s0 [] (S k) st st' →
  heap st' !! s0 = Some (ref_v st') ∧
  align (old_ref_v st') (old_ref_v st') = inr (ref_v st').
Proof.
  revert st. induction k as [|k IH]; intros st Hs0 Hit.
  - inversion Hit as [|k_ st_ st1 st2 Hc Hb Hit1]; subst.
    inversion Hit1; subst.
    destruct (body_single s0 st st' Hs0 Hb) as (Hm & Ho & Hal).
    split; [done|]. by rewrite Ho.
  - inversion Hit as [|k_ st_ st1 st2 Hc Hb Hit1]; subst.
    destruct (body_single s0 st st1 Hs0 Hb) as (Hm & _ & _).
    by apply (IH st1).
Qed.

(** For a collection of one mesh, in exact arithmetic, the reference is the
    mesh itself after every iteration: the mean of one array is that array.
    Each iteration therefore aligns the mesh onto its own current shape, and
    the loop computes the successive images of the initial shape under
    [x ↦ align(x, x)] until two of them in a row are within the tolerance,
    or 1000 iterations are done. *)
Theorem single_mesh_is_its_own_reference s0 h (v0 : verts R) k st :
  h !! s0 = Some v0 →
  iterates align s0 [] (S k) (init v0 h) st →
  heap st !! s0 = Some (ref_v st) ∧
  align (old_ref_v st) (old_ref_v st) = inr (ref_v st).
Proof. intros Hs0 Hit. by apply (iterates_single s0 k (init v0 h)). Qed.
End SingleMesh.


(** * The loop test, the sentinel, identical meshes, mismatched vertex counts *)

Section Distance.
Context {F : Type} `{Scalar F} {E : Type}.
Variable align : verts F → verts F → E + verts F.

(** The dot product of the flattened array with itself adds the squares of
    the entries in the order of [squares]. *)
Lemma sqnorm_squares (d : verts F) acc :
  fold_left (λ acc x, fadd acc (fmul x x)) (ravel d) acc =
  fold_left fadd (squares d) acc.
Proof.
  revert acc. induction d as [|[[x y] z] d IH]; intros acc; [done|].
  simpl. apply IH.
Qed.

(** What [np.linalg.norm] computes is the Euclidean norm. *)
Lemma norm_euclidean (d : verts F) : norm d = euclidean_norm d.
Proof. unfold norm, sqnorm, euclidean_norm. by rewrite sqnorm_squares. Qed.

Lemma subtraction_difference (a b : verts F) :
  zip_with (vlift2 fsub) a b = difference a b.
Proof.
  unfold difference. apply zip_with_ext; [|done..].
  by intros [[??]?] [[??]?].
Qed.

Lemma length_add_scalar (a : verts F) c : length (add_scalar a c) = length a.
Proof. unfold add_scalar. by rewrite length_fmap. Qed.

(** The test of the loop on references with the same number of vertices. *)
Lemma cond_same_length (st : state F) :
  length (ref_v st) = length (old_ref_v st) →
  cond (E:=E) st =
    Normal (fgt (distance (ref_v st) (old_ref_v st)) tol && (n_steps st <? 1000)).
Proof.
  intros Hlen. unfold cond. rewrite broadcast2_same_length by done.
  by rewrite norm_euclidean, subtraction_difference.
Qed.


(** A test that is true is followed by an execution of the body. *)
Lemma enters_body s0 rest (st : state F) :
  cond (E:=E) st = Normal true → ∃ k c, loop_runs align s0 rest st (S k) c.
Proof.
  intros Hc. destruct (body align s0 rest st) as [st'|l e h] eqn:Hb.
  - destruct (loop_runs_total align s0 rest st') as (k & c & Hr).
    exists k, c. by eapply runs_iterate.
  - exists 0, (Raised l e h). by apply runs_body_raises.
Qed.

Lemma body_entries_pos s0 rest fuel (st : state F) :
  0 < body_entries align s0 rest (S fuel) st ↔ cond (E:=E) st = Normal true.
Proof.
  simpl. destruct (cond st) as [[]|l e h]; split; (done || lia).
Qed.

(** Complete iterations are counted one by one. *)
Lemma body_entries_iterates s0 rest k st st' fuel :
  iterates align s0 rest k st st' →
  body_entries align s0 rest (k + fuel) st =
    k + body_entries align s0 rest fuel st'.
Proof.
  induction 1 as [st|k st st' st'' Hc Hb _ IH]; [done|].
  simpl. by rewrite Hc, Hb, IH.
Qed.

Lemma iterates_bound s0 rest k st st' :
  iterates align s0 rest k st st' → k = 0 ∨ n_steps st + k ≤ 1000.
Proof.
  induction 1 as [st|k st st' st'' Hc Hb _ IH]; [by left|]. right.
  apply cond_true_lt in Hc. apply body_n_steps in Hb.
  destruct IH as [->|IH]; lia.
Qed.

(** A loop that ends normally after [k] entries of its body has executed
    [k] complete iterations. *)
Lemma loop_runs_iterates s0 rest (st : state F) k st' :
  loop_runs align s0 rest st k (Normal st') → iterates align s0 rest k st st'.
Proof.
  intros Hr. remember (Normal st') as c eqn:Hc.
  induction Hr as [st l e h Ht|st Ht|st l e h Ht Hb|st st1 k c Ht Hb _ IH].
  - discriminate.
  - injection Hc as ->. constructor.
  - discriminate.
  - eapply iterates_S; [done..|]. by apply IH.
Qed.

(** C3.  At a test of the loop in state [st] the loop goes on with a
    further iteration exactly when both (a) the difference of the reference
    and the previous reference, as numpy subtracts them, has a Euclidean
    norm above 1e-11, and (b) the counter of iterations is below 1000.  The
    norm is the square root of the sum over all vertices and axes of the
    squares of the entries of the difference, computed in the element type
    of the arrays; for references with the same number of vertices the
    entries are the component differences and the norm is their [distance].
    "Goes on" is read in the test itself, in the loop (the body is entered),
    and in the procedure: after [k] complete iterations from the start, a
    further one is begun exactly when (a) holds and [k] is below 1000. *)
Theorem loop_test s0 rest (st : state F) :
  (cond (E:=E) st = Normal true ↔
   (∃ d, broadcast2 fsub (ref_v st) (old_ref_v st) = Some d ∧
         fgt (euclidean_norm d) tol = true) ∧
   n_steps st < 1000) ∧
  (length (ref_v st) = length (old_ref_v st) →
   broadcast2 fsub (ref_v st) (old_ref_v st) =
     Some (difference (ref_v st) (old_ref_v st)) ∧
   cond (E:=E) st =
     Normal (fgt (distance (ref_v st) (old_ref_v st)) tol &&
             (n_steps st <? 1000))) ∧
  ((∃ k c, loop_runs align s0 rest st (S k) c) ↔
   cond (E:=E) st = Normal true) ∧
  (∀ fuel,
     while_loop align s0 rest (S fuel) st =
       match cond st with
       | Normal true =>
           match body align s0 rest st with
           | Normal st' => while_loop align s0 rest fuel st'
           | Raised l e h => Some (Raised l e h)
           end
       | Normal false => Some (Normal st)
       | Raised l e h => Some (Raised l e h)
       end) ∧
  (∀ v0 h k,
     h !! s0 = Some v0 →
     iterates align s0 rest k (init v0 h) st →
     n_steps st = k ∧
     (k < body_entries align s0 rest 1001 (init v0 h) ↔
      (∃ d, broadcast2 fsub (ref_v st) (old_ref_v st) = Some d ∧
            fgt (euclidean_norm d) tol = true) ∧
      k < 1000)).
Proof.
  assert (cond (E:=E) st = Normal true ↔
          (∃ d, broadcast2 fsub (ref_v st) (old_ref_v st) = Some d ∧
                fgt (euclidean_norm d) tol = true) ∧
          n_steps st < 1000) as Htest.
  { unfold cond. destruct (broadcast2 _ _ _) as [d|].
    - rewrite norm_euclidean. split.
      + intros [= Hb]. apply andb_true_iff in Hb as [Hn Hk].
        apply Nat.ltb_lt in Hk. eauto.
      + intros [(d' & [= <-] & Hn) Hk]. f_equal.
        apply andb_true_iff. split; [done|by apply Nat.ltb_lt].
    - split; [done|]. by intros [(d & ? & _) _]. }
  split; [exact Htest|]. split; [|split; [|split]].
  - intros Hlen. split; [|by apply cond_same_length].
    rewrite broadcast2_same_length by done.
    by rewrite subtraction_difference.
  - split; [|apply enters_body]. intros (k & c & Hr). by inversion Hr.
  - intros fuel. simpl. by destruct (cond st) as [[]|].
  - intros v0 h k Hs0 Hit.
    assert (n_steps st = k) as Hn.
    { apply iterates_n_steps in Hit. simpl in Hit. lia. }
    split; [done|]. subst k. rewrite <- Htest.
    assert (n_steps st ≤ 1000) as Hk.
    { apply iterates_bound in Hit. simpl in Hit. lia. }
    replace 1001 with (n_steps st + S (1000 - n_steps st)) by lia.
    rewrite (body_entries_iterates s0 rest _ _ st _ Hit).
    rewrite <- (body_entries_pos s0 rest (1000 - n_steps st)). lia.
Qed.


(** C5 (amended).  Every mesh of the collection holds the same array [c],
    and [align(c, c)] returns [c].  If the first test of the loop is true,
    and if the distance computed between the mean of the copies of [c] and
    [c] does not exceed 1e-11, then exactly one iteration is executed: its
    alignment pass leaves the store as it is, the new reference is the mean
    of the copies, the previous reference is [c], the second test is false,
    and the procedure returns with every mesh unchanged. *)
Theorem identical_meshes_one_iteration s0 rest h (c : verts F) :
  (∀ s, s ∈ s0 :: rest → h !! s = Some c) →
  align c c = inr c →
  cond (E:=E) (init c h) = Normal true →
  fgt (distance (mean_axis0 c (replicate (length rest) c)) c) tol = false →
  body align s0 rest (init c h) =
    Normal (mkState (mean_axis0 c (replicate (length rest) c)) c 1 h) ∧
  cond (E:=E) (mkState (mean_axis0 c (replicate (length rest) c)) c 1 h) =
    Normal false ∧
  (∀ k r, loop_runs align s0 rest (init c h) k r ↔
          k = 1 ∧
          r = Normal (mkState (mean_axis0 c (replicate (length rest) c)) c 1 h)) ∧
  body_entries align s0 rest 1001 (init c h) = 1 ∧
  generalized_procrustes align (s0 :: rest) h = Some (Normal (None, h)).
Proof.
  intros Hall Ha Hfirst Hnear.
  set (m := mean_axis0 c (replicate (length rest) c)) in *.
  assert (h !! s0 = Some c) as Hs0 by (apply Hall; by left).
  assert (body align s0 rest (init c h) = Normal (mkState m c 1 h)) as Hb.
  { unfold body. simpl ref_v. simpl heap. simpl n_steps.
    rewrite (align_all_identical align c (s0 :: rest) h Hall Ha).
    unfold new_reference. rewrite Hs0.
    rewrite (lookups_identical c rest h) by (intros; apply Hall; by right).
    by rewrite same_shape_replicate. }
  assert (length m = length c) as Hlen.
  { unfold m, mean_axis0. rewrite length_fmap, length_sum_rows; [done|].
    apply same_shape_Forall, same_shape_replicate. }
  assert (cond (E:=E) (mkState m c 1 h) = Normal false) as Hsecond.
  { rewrite cond_same_length by done. simpl. by rewrite Hnear. }
  assert (loop_runs align s0 rest (init c h) 1 (Normal (mkState m c 1 h))) as Hr.
  { eapply runs_iterate; [done..|]. by apply runs_exit. }
  split; [done|]. split; [done|]. split; [|split].
  - intros k r. split.
    + intros Hr'. by destruct (loop_runs_det align s0 rest _ _ _ _ _ Hr' Hr).
    + by intros [-> ->].
  - assert (iterates align s0 rest 1 (init c h) (mkState m c 1 h)) as Hit.
    { eapply iterates_S; [done..|]. constructor. }
    change 1001 with (1 + 1000).
    rewrite (body_entries_iterates s0 rest 1 _ _ 1000 Hit).
    by rewrite (body_entries_exit align s0 rest _ _ Hsecond).
  - unfold generalized_procrustes.
    rewrite (generalized_procrustes_of_run align s0 rest h c _ _ 1001 Hs0 Hr);
      [done|lia].
Qed.

(** C7 (amended).  Some mesh of the collection has another number of
    vertices than the first, and [align] returns and returns as many
    vertices as its source has.  If the first test of the loop is true, the
    first iteration aligns every mesh of the collection, then the
    computation of the mean on line 22 raises [ValueError], and the
    procedure ends with it, the store being the one the alignment pass left.
    No mean is computed. *)
Theorem mismatched_vertex_counts_raise s0 rest h (v0 : verts F) :
  always_returns align →
  keeps_vertex_count align →
  h !! s0 = Some v0 →
  cond (E:=E) (init v0 h) = Normal true →
  (∀ s, s ∈ rest → is_Some (h !! s)) →
  (∃ s v, s ∈ rest ∧ h !! s = Some v ∧ length v ≠ length v0) →
  ∃ h', aligned_in_order align v0 (s0 :: rest) h h' ∧
        new_reference (E:=E) s0 rest h' = Raised line22 ValueError h' ∧
        loop_runs align s0 rest (init v0 h) 1 (Raised line22 ValueError h') ∧
        generalized_procrustes align (s0 :: rest) h =
          Some (Raised line22 ValueError h').
Proof.
  intros Hret Hk Hs0 Hfirst Hvalid (s & v & Hs & Hv & Hlen).
  destruct (align_all_succeeds align v0 (s0 :: rest) h Hret) as [h' Ha].
  { intros s' [->|Hs']%elem_of_cons; [by rewrite Hs0|by apply Hvalid]. }
  pose proof (λ l, align_all_vertex_count align v0 (s0 :: rest) h h' l Hk Ha)
    as Hcnt.
  assert (∃ a', h' !! s0 = Some a' ∧ length a' = length v0) as (a' & Ha' & Hla').
  { specialize (Hcnt s0). rewrite Hs0 in Hcnt.
    destruct (h' !! s0) as [a'|]; [|done]. injection Hcnt as Hcnt. eauto. }
  assert (∃ v', h' !! s = Some v' ∧ length v' = length v) as (v' & Hv' & Hlv').
  { specialize (Hcnt s). rewrite Hv in Hcnt.
    destruct (h' !! s) as [v'|]; [|done]. injection Hcnt as Hcnt. eauto. }
  assert (is_Some (mapM (λ s, h' !! s) rest)) as [bs Hbs].
  { apply mapM_is_Some, Forall_forall. intros s' Hs'. simpl.
    specialize (Hcnt s'). destruct (Hvalid s' Hs') as [w Hw].
    rewrite Hw in Hcnt. by destruct (h' !! s'). }
  assert (same_shape a' bs = false) as Hshape.
  { apply not_true_is_false. intros Hsh. apply same_shape_Forall in Hsh.
    apply list_elem_of_lookup in Hs as [i Hi].
    apply mapM_Some_1 in Hbs.
    destruct (Forall2_lookup_l _ _ _ _ _ Hbs Hi) as (w & Hw & Hsw).
    rewrite Hv' in Hsw. injection Hsw as <-.
    pose proof (Forall_lookup_1 _ _ _ _ Hsh Hw) as Hl. simpl in Hl. lia. }
  assert (new_reference (E:=E) s0 rest h' = Raised line22 ValueError h') as Hm.
  { unfold new_reference. by rewrite Ha', Hbs, Hshape. }
  assert (body align s0 rest (init v0 h) = Raised line22 ValueError h') as Hb.
  { unfold body. simpl ref_v. simpl heap. by rewrite Ha, Hm. }
  assert (loop_runs align s0 rest (init v0 h) 1 (Raised line22 ValueError h'))
    as Hr by (by apply runs_body_raises).
  exists h'. split; [by apply align_all_in_order|]. split; [done|].
  split; [done|].
  unfold generalized_procrustes.
  rewrite (generalized_procrustes_of_run align s0 rest h v0 _ _ 1001 Hs0 Hr);
    [done|lia].
Qed.
End Distance.


(** * Instances of the theorems above *)

Section Instances.
Local Open Scope positive_scope.

(** The run on meshes that all hold one array, in exact arithmetic. *)
Lemma identical_meshes_run {E : Type} (align : verts R → verts R → E + verts R)
    s0 rest h (c : verts R) :
  (∀ s, s ∈ s0 :: rest → h !! s = Some c) →
  align c c = inr c →
  c ≠ [] →
  cond (E:=E) (init c h) = Normal true ∧
  body align s0 rest (init c h) = Normal (mkState c c 1 h) ∧
  loop_runs align s0 rest (init c h) 1 (Normal (mkState c c 1 h)).
Proof.
  intros Hall Ha Hne.
  assert (body align s0 rest (init c h) = Normal (mkState c c 1 h)) as Hb.
  { unfold body. simpl ref_v. simpl heap. simpl n_steps.
    rewrite (align_all_identical align c (s0 :: rest) h Hall Ha).
    unfold new_reference. rewrite (Hall s0) by (by left).
    rewrite (lookups_identical c rest h) by (intros; apply Hall; by right).
    by rewrite same_shape_replicate, mean_axis0_replicate. }
  split; [by apply cond_init_true|]. split; [done|].
  eapply runs_iterate; [by apply cond_init_true|done|].
  apply runs_exit, cond_converged.
Qed.

Lemma identity_keeps_vertex_count {F : Type} :
  keeps_vertex_count (identity_align (F:=F)).
Proof. by intros src ref v [= <-]. Qed.

Lemma identity_always_returns {F : Type} :
  always_returns (identity_align (F:=F)).
Proof. intros src ref. by exists src. Qed.

(** The run of the identity on [store_two_meshes]: two iterations. *)
Lemma two_meshes_run :
  loop_runs identity_align 1 [2] (init [(0, 0, 0)%float] store_two_meshes) 2
    (Normal (mkState [(1, 2, 3)%float] [(1, 2, 3)%float] 2 store_two_meshes)).
Proof.
  replace 2%nat with (body_entries identity_align 1 [2] 3
                        (init [(0, 0, 0)%float] store_two_meshes))
    by (vm_compute; reflexivity).
  apply body_entries_runs. vm_compute. reflexivity.
Qed.

Lemma vertex_counts_are_kept_witness :
  ∃ c, generalized_procrustes picky_align [1; 2] store_two_points = Some c ∧
       ∀ l, length <$> store_of c !! l = length <$> store_two_points !! l.
Proof.
  apply (vertex_counts_are_kept picky_align [1; 2] store_two_points).
  intros src ref v. unfold picky_align.
  destruct src as [|[[x y] z] src]; [by intros [= <-]|].
  destruct (PrimFloat.ltb x 0); [discriminate|by intros [= <-]].
Defined.

Lemma meshes_in_correspondence_return_witness :
  ∃ h', generalized_procrustes identity_align [1; 2] store_two_meshes =
          Some (Normal (None, h')) ∧
        ∀ s, s ∈ [1; 2] → ∃ a, h' !! s = Some a ∧ length a = 1%nat.
Proof.
  apply (meshes_in_correspondence_return identity_align [1; 2] store_two_meshes 1).
  - apply identity_always_returns.
  - apply identity_keeps_vertex_count.
  - discriminate.
  - intros s Hs. apply elem_of_cons in Hs as [->|Hs].
    + by exists [(0, 0, 0)%float].
    + apply list_elem_of_singleton in Hs as ->. by exists [(2, 4, 6)%float].
Defined.

Lemma early_return_means_converged_witness :
  ∃ d, broadcast2 fsub [(1, 2, 3)%float] [(1, 2, 3)%float] = Some d ∧
       fgt (norm d) tol = false.
Proof.
  apply (early_return_means_converged identity_align 1 [2]
           [(0, 0, 0)%float] store_two_meshes 2 _ two_meshes_run).
  lia.
Defined.

Lemma meshes_end_aligned_to_previous_reference_witness :
  ∃ h_before arrs,
    aligned_in_order identity_align [(1, 2, 3)%float] [1; 2] h_before
      store_two_meshes ∧
    mapM (λ s, store_two_meshes !! s) [1; 2] = Some arrs ∧
    is_mean_of [(1, 2, 3)%float] arrs.
Proof.
  apply (meshes_end_aligned_to_previous_reference identity_align 1 [2]
           [(0, 0, 0)%float] store_two_meshes 1 _ two_meshes_run).
Defined.

Lemma possible_failures_witness :
  generalized_procrustes picky_align [1; 2] store_two_points =
    Some (Raised line19 (AlignError tt) store_two_points) ∧
  ∃ e' v r, AlignError tt = AlignError e' ∧ picky_align v r = inl e'.
Proof.
  assert (generalized_procrustes picky_align [1; 2] store_two_points =
            Some (Raised line19 (AlignError tt) store_two_points)) as Hg
    by (vm_compute; reflexivity).
  split; [exact Hg|].
  destruct (possible_failures picky_align _ _ _ _ _ Hg)
    as [(? & _)|[(? & _)|[(? & _)|[(_ & ? & _)|[(_ & Hal)|(? & _)]]]]];
    try discriminate.
  exact Hal.
Defined.

Lemma missing_vertex_array_found_late_witness :
  store_segment !! 2 = None ∧
  generalized_procrustes drifting_align [1; 2] store_segment =
    Some (Raised line19 AttributeError store_segment_drifted).
Proof.
  split; [reflexivity|].
  apply (missing_vertex_array_found_late drifting_align 1 [2] store_segment
           [(0, 0, 0); (0, 0, 0)]%float [1] 2 [] store_segment_drifted).
  - reflexivity.
  - vm_compute. reflexivity.
  - reflexivity.
  - eapply (aligned_cons drifting_align _ 1 [] store_segment
              [(0, 0, 0); (0, 0, 0)]%float [(1, 1, 1); (1, 1, 1)]%float);
      [reflexivity|vm_compute; reflexivity|].
    replace (<[1:=[(1, 1, 1); (1, 1, 1)]%float]> store_segment)
      with store_segment_drifted by (vm_compute; reflexivity).
    constructor.
  - reflexivity.
Defined.

Lemma alignment_pass_without_repeats_witness :
  NoDup [1; 2] ∧
  align_all drifting_align [] [2; 1] store_two_meshes =
  align_all drifting_align [] [1; 2] store_two_meshes.
Proof.
  assert (NoDup [1; 2]) as Hnd.
  { apply (bool_decide_unpack _). vm_compute. exact I. }
  split; [exact Hnd|].
  destruct (align_all drifting_align [] [1; 2] store_two_meshes) as [h'|l e h']
    eqn:Ha; [|vm_compute in Ha; discriminate].
  apply (alignment_pass_without_repeats drifting_align [] [1; 2]
           store_two_meshes h' Hnd); [|exact Ha].
  apply perm_swap.
Defined.

Lemma single_mesh_is_its_own_reference_witness :
  store_triangle !! 1 = Some triangle ∧
  identity_align triangle triangle = inr triangle.
Proof.
  split; [reflexivity|].
  assert (∀ s, s ∈ [1] → store_triangle !! s = Some triangle) as Hall.
  { intros s Hs. apply list_elem_of_singleton in Hs as ->. reflexivity. }
  destruct (identical_meshes_run identity_align 1 [] store_triangle triangle
              Hall eq_refl ltac:(discriminate)) as (Hc & Hb & _).
  apply (single_mesh_is_its_own_reference identity_align 1 store_triangle
           triangle 0 (mkState triangle triangle 1 store_triangle) eq_refl).
  eapply iterates_S; [exact Hc|exact Hb|constructor].
Defined.

(** C2 at the cap: [drifting_align] keeps the vertex count and never lets
    the reference settle; the body is executed 1000 times and the procedure
    returns, silently, with the mesh as the last iteration left it. *)
Lemma iteration_cap_witness :
  iterates drifting_align 1 [] 1000
    (init [(0, 0, 0); (0, 0, 0)]%float store_segment)
    (mkState [(1000, 1000, 1000); (1000, 1000, 1000)]%float
             [(999, 999, 999); (999, 999, 999)]%float 1000
             store_segment_at_cap) ∧
  generalized_procrustes drifting_align [1] store_segment =
    Some (Normal (None, store_segment_at_cap)).
Proof.
  assert (iterates drifting_align 1 [] 1000
            (init [(0, 0, 0); (0, 0, 0)]%float store_segment)
            (mkState [(1000, 1000, 1000); (1000, 1000, 1000)]%float
                     [(999, 999, 999); (999, 999, 999)]%float 1000
                     store_segment_at_cap)) as Hit.
  { apply loop_runs_iterates.
    replace 1000%nat with (body_entries drifting_align 1 [] 1001
                             (init [(0, 0, 0); (0, 0, 0)]%float store_segment))
      by (vm_compute; reflexivity).
    apply body_entries_runs. vm_compute. reflexivity. }
  split; [exact Hit|].
  destruct (iteration_cap drifting_align [1] store_segment) as [_ Hcap].
  destruct (Hcap 1 [] [(0, 0, 0); (0, 0, 0)]%float eq_refl eq_refl)
    as (_ & _ & Hkeeps).
  destruct Hkeeps as [_ Hfin].
  { intros src ref v [= <-]. apply length_add_scalar. }
  destruct (Hfin _ Hit) as (_ & _ & Hg). exact Hg.
Defined.


(** C5, witness in binary64: three references to a point with coordinates
    0.1, aligned by the identity.  The mean of the three copies is not the
    point (it is one unit in the last place above it), but it is within the
    tolerance, and one iteration is executed. *)
Lemma identical_meshes_one_iteration_witness :
  (∀ s, s ∈ [1; 1; 1] → store_tenth_point !! s = Some tenth_point) ∧
  mean_axis0 tenth_point [tenth_point; tenth_point] ≠ tenth_point ∧
  body_entries identity_align 1 [1; 1] 1001
    (init tenth_point store_tenth_point) = 1%nat ∧
  generalized_procrustes identity_align [1; 1; 1] store_tenth_point =
    Some (Normal (None, store_tenth_point)).
Proof.
  assert (∀ s, s ∈ [1; 1; 1] → store_tenth_point !! s = Some tenth_point)
    as Hall.
  { intros s Hs. assert (s = 1) as ->; [|reflexivity].
    repeat (apply elem_of_cons in Hs as [->|Hs]; [done|]).
    by apply elem_of_nil in Hs. }
  split; [exact Hall|]. split; [vm_compute; discriminate|].
  destruct (identical_meshes_one_iteration identity_align 1 [1; 1]
              store_tenth_point tenth_point Hall eq_refl)
    as (_ & _ & _ & Hone & Hg).
  - vm_compute. reflexivity.
  - vm_compute. reflexivity.
  - split; [exact Hone|exact Hg].
Defined.

(** C7, witness in binary64: a triangle and a quad, as in the
    specification, aligned by the identity. *)
Lemma mismatched_vertex_counts_raise_witness :
  length quad64 ≠ length triangle64 ∧
  cond (E:=Empty_set) (init triangle64 store_triangle_and_quad64) =
    Normal true ∧
  generalized_procrustes identity_align [1; 2] store_triangle_and_quad64 =
    Some (Raised line22 ValueError store_triangle_and_quad64).
Proof.
  split; [discriminate|].
  assert (cond (E:=Empty_set) (init triangle64 store_triangle_and_quad64) =
            Normal true) as Hc by (vm_compute; reflexivity).
  split; [exact Hc|].
  destruct (mismatched_vertex_counts_raise identity_align 1 [2]
              store_triangle_and_quad64 triangle64) as (h' & Ha & _ & _ & Hg).
  - apply identity_always_returns.
  - apply identity_keeps_vertex_count.
  - reflexivity.
  - exact Hc.
  - intros s Hs. apply list_elem_of_singleton in Hs as ->. by exists quad64.
  - exists 2, quad64. split; [by apply list_elem_of_singleton|].
    split; [reflexivity|discriminate].
  - rewrite Hg. do 2 f_equal.
    inversion Ha as [|????? h1 Hs1 [= <-] Ha1]; subst.
    inversion Ha1 as [|????? h2 Hs2 [= <-] Ha2]; subst.
    inversion Ha2; subst.
    rewrite !insert_id; [done..|]. by rewrite insert_id.
Defined.

(** What exact arithmetic hides, stated for binary64.  Non-empty identical
    meshes aligned by the identity can take two iterations: the mean of
    three copies of an array can differ from the array by more than the
    tolerance. *)
Lemma binary64_identical_meshes_can_take_two_iterations :
  ∃ (c : verts float) s0 rest h,
    c ≠ [] ∧
    (∀ s, s ∈ s0 :: rest → h !! s = Some c) ∧
    mean_axis0 c (replicate (length rest) c) ≠ c ∧
    body_entries identity_align s0 rest 1001 (init c h) = 2%nat.
Proof.
  exists rounded_point, 1, [1; 1], store_rounded_point.
  split; [discriminate|]. split; [|split].
  - intros s Hs. assert (s = 1) as ->; [|reflexivity].
    repeat (apply elem_of_cons in Hs as [->|Hs]; [done|]).
    by apply elem_of_nil in Hs.
  - vm_compute. discriminate.
  - vm_compute. reflexivity.
Qed.

(** And a non-empty first mesh does not make the sentinel differ in
    binary64: when adding 1 changes no coordinate, the loop is skipped. *)
Lemma binary64_sentinel_can_equal_reference :
  ∃ (v0 : verts float) h,
    v0 ≠ [] ∧ h !! 1 = Some v0 ∧
    add_scalar v0 1%float = v0 ∧
    cond (E:=Empty_set) (init v0 h) = Normal false ∧
    generalized_procrustes drifting_align [1] h = Some (Normal (None, h)).
Proof.
  exists huge_point, store_huge_point.
  split; [discriminate|]. repeat split; vm_compute; reflexivity.
Qed.
End Instances.
